(** * The FastAPI ingest service ([fastapi-ingest/_endpoint.py])

    A shallow embedding of the module: its start-up code (the four
    [os.environ] reads and the two route registrations), the two handlers
    [health] and [ingest], and [insert_row], which opens a [psycopg2]
    connection, opens a cursor and executes one parameterized [INSERT].

    The handlers only call library code, so the libraries are part of the
    model, each by its documented behaviour:
    - Python's [with] statement (PEP 343) and exception chaining;
    - [psycopg2]: [connect], [connection.__enter__/__exit__] (commit or
      rollback; the connection stays open), [cursor.__enter__/__exit__]
      (closes the cursor), [cursor.execute], and what the client does to a
      connection whose commit fails;
    - CPython's reference counting: the connection object that only the
      frame of [insert_row] refers to is freed, and so closed, when the
      call returns, and kept by the traceback when the call raises;
    - [uuid.uuid4], [random.choice], [random.uniform], [round] and
      [json.dumps] of the standard library, with binary64 arithmetic
      written out over the integers;
    - the database: tables of committed rows, one pending transaction per
      connection, a clock for [NOW()].
    Whatever the code cannot control is an input of the model: the process
    environment, a tape of random integers, and a fault oracle that decides
    which client call fails, with which exception, and whether a commit that
    fails was refused by the server or cut off by the loss of the link,
    before or after the server applied it. *)

From stdpp Require Import gmap strings list.
From Stdlib Require Import ZArith Lia.

Local Open Scope Z_scope.

(** ** Binary64 arithmetic *)

(** Every float that [random.uniform(60, 100)] and [round(_, 1)] go through
    is a non-negative multiple of [2^-53]. A float is represented by the
    integer [f] that stands for the real number [f / 2^53]; the order on
    floats is the order on these integers. *)
Module Float64.

Definition float := Z.

Definition unit : Z := 2 ^ 53.

(** [n / d] rounded to the nearest integer, ties to the even one
    ([0 < d]). *)
Definition rne_div (n d : Z) : Z :=
  let q := n / d in
  match 2 * (n mod d) ?= d with
  | Lt => q
  | Gt => q + 1
  | Eq => if Z.even q then q else q + 1
  end.

(** The position of the last of the 53 significant bits of a value whose
    integer part (in units of [2^-53]) is [v]. *)
Definition ulp_exp (v : Z) : Z := Z.log2 v - 52.

(** The float nearest to the rational [n / d] (in units of [2^-53], so the
    real number is [n / (d * 2^53)]), round-to-nearest, ties-to-even, for
    [0 <= n] and [0 < d]. Exact for every value of at least one half, and
    for smaller ones that are integers in these units. *)
Definition nearest (n d : Z) : float :=
  let s := ulp_exp (n / d) in
  if s <=? 0 then rne_div n d else 2 ^ s * rne_div n (d * 2 ^ s).

(** The floats of the representation: at most 53 significant bits. *)
Definition is_float (x : Z) : bool :=
  (0 <=? x) && ((ulp_exp x <=? 0) || (x mod 2 ^ ulp_exp x =? 0)).

(** [float(i)] for an [int]. *)
Definition of_int (i : Z) : float := nearest (i * unit) 1.

(** [x * y] and [x + y] on floats: the exact result, rounded once. *)
Definition mul (x y : float) : float := nearest (x * y) unit.
Definition add (x y : float) : float := nearest (x + y) 1.

(** The float written [t / 10^ndigits] in decimal, as [float("60.2")]
    reads it. *)
Definition of_decimal (t ndigits : Z) : float :=
  nearest (t * unit) (10 ^ ndigits).

(** [round(x, ndigits)] of a float, [0 <= ndigits]: the exact value of [x]
    is rounded to [ndigits] decimals, ties to even, and the decimal is read
    back as a float. *)
Definition round_tenths (x : float) (ndigits : Z) : Z :=
  rne_div (10 ^ ndigits * x) unit.

Definition round (x : float) (ndigits : Z) : float :=
  of_decimal (round_tenths x ndigits) ndigits.

End Float64.

(** ** Strings, JSON and UUIDs *)

Definition chr (n : nat) : string := String (Ascii.ascii_of_nat n) EmptyString.

Definition dquote : string := chr 34.
Definition backslash : string := chr 92.

(** The dictionaries of the module: [str] keys and [str] values, in
    insertion order. *)
Definition Dict := list (string * string).

(** [json.dumps] with its default arguments on such a dictionary: items
    separated by [", "], key and value by [": "], strings between double
    quotes with the quote, the backslash and the usual control characters
    escaped. *)
Module JsonEncoder.

Definition escape_char (c : Ascii.ascii) : string :=
  let n := Ascii.nat_of_ascii c in
  if (n =? 34)%nat then backslash +:+ dquote
  else if (n =? 92)%nat then backslash +:+ backslash
  else if (n =? 10)%nat then backslash +:+ "n"
  else if (n =? 13)%nat then backslash +:+ "r"
  else if (n =? 9)%nat then backslash +:+ "t"
  else String c EmptyString.

Fixpoint escape (s : string) : string :=
  match s with
  | EmptyString => EmptyString
  | String c s' => escape_char c +:+ escape s'
  end.

Definition encode_str (s : string) : string := dquote +:+ escape s +:+ dquote.

Fixpoint join (sep : string) (l : list string) : string :=
  match l with
  | [] => ""
  | [x] => x
  | x :: l' => x +:+ sep +:+ join sep l'
  end.

Definition item (kv : string * string) : string :=
  encode_str kv.1 +:+ ": " +:+ encode_str kv.2.

Definition dumps (d : Dict) : string :=
  "{" +:+ join ", " (map item d) +:+ "}".

End JsonEncoder.

(** [uuid.uuid4()] and [str] of it: 16 random bytes as a 128-bit integer,
    the variant and version bits overwritten, printed as 32 hexadecimal
    digits in groups of 8-4-4-4-12. *)
Module Uuid.

Definition hex_digit (n : Z) : Ascii.ascii :=
  Ascii.ascii_of_nat (Z.to_nat (if n <? 10 then 48 + n else 87 + n)).

Fixpoint hex_rev (len : nat) (n : Z) : string :=
  match len with
  | O => EmptyString
  | S len' => String (hex_digit (n mod 16)) (hex_rev len' (n / 16))
  end.

(** ['%032x' % n] for [len = 32]. *)
Definition hex (len : nat) (n : Z) : string := String.rev (hex_rev len n).

Definition uuid4 (random_bytes : Z) : Z :=
  let i := random_bytes mod 2 ^ 128 in
  let i := Z.land i (Z.lnot (Z.shiftl 0xc000 48)) in
  let i := Z.lor i (Z.shiftl 0x8000 48) in
  let i := Z.land i (Z.lnot (Z.shiftl 0xf000 64)) in
  Z.lor i (Z.shiftl 4 76).

Definition str (u : Z) : string :=
  let h := hex 32 u in
  String.substring 0 8 h +:+ "-" +:+ String.substring 8 4 h +:+ "-" +:+ String.substring 12 4 h
    +:+ "-" +:+ String.substring 16 4 h +:+ "-" +:+ String.substring 20 12 h.

End Uuid.

(** ** Values, rows and the SQL statement *)

(** The Python values passed as query arguments. *)
Inductive PyValue :=
  | PyStr (s : string)
  | PyFloat (f : Float64.float).

(** The values stored in a column. *)
Inductive SqlValue :=
  | SqlText (s : string)
  | SqlFloat (f : Float64.float)
  | SqlTimestamp (t : Z).

(** A row: column names with their values, in statement order. *)
Definition Row := list (string * SqlValue).

(** What the database and the client make of the text of a statement
    [INSERT INTO t (c1, ..., cn) VALUES (e1, ..., en)] whose expressions are
    [%s] placeholders or calls of [NOW()]. *)
Module Sql.

Inductive Expr :=
  | Placeholder
  | Now.

Record Insert := {
  target : string;
  columns : list string;
  exprs : list Expr;
}.

Definition is_space (c : Ascii.ascii) : bool :=
  let n := Ascii.nat_of_ascii c in
  ((n =? 32) || (n =? 10) || (n =? 9) || (n =? 13))%nat.

Definition is_punct (c : Ascii.ascii) : bool :=
  let n := Ascii.nat_of_ascii c in
  ((n =? 40) || (n =? 41) || (n =? 44))%nat.

Definition flush (word : string) : list string :=
  match word with
  | EmptyString => []
  | _ => [word]
  end.

(** Words, and the punctuation [(], [)] and [,] as words of their own. *)
Fixpoint tokens (s : string) (word : string) : list string :=
  match s with
  | EmptyString => flush word
  | String c s' =>
      if is_space c then flush word ++ tokens s' ""
      else if is_punct c then flush word ++ String c "" :: tokens s' ""
      else tokens s' (word +:+ String c "")
  end.

(** [c1, ..., cn )] and what follows the parenthesis. *)
Fixpoint parse_columns (toks : list string) : option (list string * list string) :=
  match toks with
  | c :: ")" :: rest => Some ([c], rest)
  | c :: "," :: rest =>
      match parse_columns rest with
      | Some (cs, rest') => Some (c :: cs, rest')
      | None => None
      end
  | _ => None
  end.

Definition parse_expr (toks : list string) : option (Expr * list string) :=
  match toks with
  | "%s" :: rest => Some (Placeholder, rest)
  | "NOW" :: "(" :: ")" :: rest => Some (Now, rest)
  | _ => None
  end.

(** [e1, ..., en )] up to the end of the statement; [fuel] bounds the
    number of expressions by the number of tokens. *)
Fixpoint parse_exprs (fuel : nat) (toks : list string) : option (list Expr) :=
  match fuel with
  | O => None
  | S fuel' =>
      match parse_expr toks with
      | Some (e, [")"]) => Some [e]
      | Some (e, "," :: rest) =>
          match parse_exprs fuel' rest with
          | Some es => Some (e :: es)
          | None => None
          end
      | _ => None
      end
  end.

Definition parse (sql : string) : option Insert :=
  match tokens sql "" with
  | "INSERT" :: "INTO" :: t :: "(" :: rest =>
      match parse_columns rest with
      | Some (cs, "VALUES" :: "(" :: rest') =>
          match parse_exprs (length rest') rest' with
          | Some es =>
              if (length cs =? length es)%nat
              then Some {| target := t; columns := cs; exprs := es |}
              else None
          | None => None
          end
      | _ => None
      end
  | _ => None
  end.

(** How the client adapts an argument. *)
Definition adapt (v : PyValue) : SqlValue :=
  match v with
  | PyStr s => SqlText s
  | PyFloat f => SqlFloat f
  end.

(** The values of the expressions: each placeholder takes the next
    argument, [NOW()] reads the clock of the database. There must be as
    many arguments as placeholders. *)
Fixpoint eval (es : list Expr) (args : list PyValue) (clock : Z) : option (list SqlValue) :=
  match es, args with
  | [], [] => Some []
  | [], _ :: _ => None
  | Placeholder :: es', a :: args' =>
      match eval es' args' clock with
      | Some vs => Some (adapt a :: vs)
      | None => None
      end
  | Placeholder :: _, [] => None
  | Now :: es', _ =>
      match eval es' args clock with
      | Some vs => Some (SqlTimestamp clock :: vs)
      | None => None
      end
  end.

(** The table and the row that a statement inserts. *)
Definition row_of (sql : string) (args : list PyValue) (clock : Z) : option (string * Row) :=
  match parse sql with
  | Some ins =>
      match eval (exprs ins) args clock with
      | Some vs => Some (target ins, zip (columns ins) vs)
      | None => None
      end
  | None => None
  end.

End Sql.

(** ** Exceptions and outcomes *)

Record Error := {
  cls : string;
  msg : string;
}.

(** A raised exception with its chain of [__context__]: the exceptions that
    were being handled when it was raised, the nearest first. *)
Record Exn := {
  error : Error;
  context : list Error;
}.

Definition exn_of (e : Error) : Exn := {| error := e; context := [] |}.

(** Raising [e'] while [e] is being handled. *)
Definition chain (e' e : Exn) : Exn :=
  {| error := error e'; context := error e :: context e |}.

(** [e] is the exception [e0], or was raised while [e0] was being handled. *)
Definition carries (e0 : Error) (e : Exn) : Prop :=
  error e = e0 ∨ e0 ∈ context e.

Inductive Outcome (A : Type) :=
  | Return (a : A)
  | Raise (e : Exn).

Arguments Return {A} a.
Arguments Raise {A} e.

(** ** The world outside the module *)

(** The calls to the database client that reach the server or end a
    connection. *)
Inductive Event :=
  | EvConnect (user password dbname host : string)
  | EvExecute (conn : nat) (sql : string) (args : list PyValue)
  | EvCommit (conn : nat)
  | EvRollback (conn : nat)
  | EvClose (conn : nat).

(** The calls that can fail for reasons outside the program. *)
Inductive Op :=
  | OpConnect
  | OpExecute
  | OpCommit
  | OpRollback.

(** How a commit fails: the server refuses it and rolls the transaction
    back, or the connection breaks during the call, before the server
    applied the commit or after it did and before its reply arrived. *)
Inductive CommitFailure :=
  | Refused
  | Broken (applied : bool).

Definition is_op (op : Op) (ev : Event) : bool :=
  match op, ev with
  | OpConnect, EvConnect _ _ _ _ => true
  | OpExecute, EvExecute _ _ _ => true
  | OpCommit, EvCommit _ => true
  | OpRollback, EvRollback _ => true
  | _, _ => false
  end.

Definition count (op : Op) (tr : list Event) : nat := length (filter (λ ev, is_op op ev = true) tr).

(** A connection object: whether it was closed, and the rows of its open
    transaction, each with its table. A connection is closed by
    [conn.close()], by the client when it finds the connection broken, and
    by the interpreter when it frees the object. *)
Record Conn := {
  conn_closed : bool;
  conn_pending : list (string * Row);
}.

Record Cursor := {
  cur_conn : nat;
  cur_closed : bool;
}.

Record World := {
  (** the committed rows of each table *)
  tables : gmap string (list Row);
  (** the clock of the database *)
  clock : Z;
  (** every connection and cursor object created so far; an object is
      named by its position *)
  conns : list Conn;
  cursors : list Cursor;
  (** the client calls made so far, oldest first *)
  trace : list Event;
  (** a tape of random integers, one for each call of the generator that
      the module makes, and how many of them were read *)
  tape : nat → Z;
  drawn : nat;
  (** [faults op n = Some e]: the [n]-th call of [op], counted from 1,
      fails with [e] *)
  faults : Op → nat → option Error;
  (** how the [n]-th commit fails, when it does *)
  commit_failure : nat → CommitFailure;
}.

Definition rows (w : World) (t : string) : list Row := default [] (tables w !! t).

Definition set_tables (f : gmap string (list Row) → gmap string (list Row)) (w : World) : World :=
  {| tables := f (tables w); clock := clock w; conns := conns w; cursors := cursors w;
     trace := trace w; tape := tape w; drawn := drawn w; faults := faults w;
     commit_failure := commit_failure w |}.

Definition set_conns (f : list Conn → list Conn) (w : World) : World :=
  {| tables := tables w; clock := clock w; conns := f (conns w); cursors := cursors w;
     trace := trace w; tape := tape w; drawn := drawn w; faults := faults w;
     commit_failure := commit_failure w |}.

Definition set_cursors (f : list Cursor → list Cursor) (w : World) : World :=
  {| tables := tables w; clock := clock w; conns := conns w; cursors := f (cursors w);
     trace := trace w; tape := tape w; drawn := drawn w; faults := faults w;
     commit_failure := commit_failure w |}.

Definition set_trace (f : list Event → list Event) (w : World) : World :=
  {| tables := tables w; clock := clock w; conns := conns w; cursors := cursors w;
     trace := f (trace w); tape := tape w; drawn := drawn w; faults := faults w;
     commit_failure := commit_failure w |}.

Definition set_drawn (f : nat → nat) (w : World) : World :=
  {| tables := tables w; clock := clock w; conns := conns w; cursors := cursors w;
     trace := trace w; tape := tape w; drawn := f (drawn w); faults := faults w;
     commit_failure := commit_failure w |}.

(** ** Computations *)

(** A Python computation: from a world to a value or a raised exception,
    and the world it leaves. *)
Definition Py (A : Type) : Type := World → Outcome A * World.

#[export] Instance Py_ret : MRet Py := λ A a w, (Return a, w).

Definition raise {A} (c m : string) : Py A :=
  λ w, (Raise (exn_of {| cls := c; msg := m |}), w).

Definition reraise {A} (e : Exn) : Py A := λ w, (Raise e, w).

#[export] Instance Py_bind : MBind Py :=
  λ A B k m w, match m w with
               | (Return a, w') => k a w'
               | (Raise e, w') => (Raise e, w')
               end.

(** [try: m], keeping what it raised. *)
Definition try {A} (m : Py A) : Py (Outcome A) :=
  λ w, let (r, w') := m w in (Return r, w').

(** [m] run in the handler of [e]: what it raises has [e] as context. *)
Definition handling {A} (e : Exn) (m : Py A) : Py A :=
  λ w, match m w with
       | (Return a, w') => (Return a, w')
       | (Raise e', w') => (Raise (chain e' e), w')
       end.

Definition get {A} (f : World → A) : Py A := λ w, (Return (f w), w).
Definition modify (f : World → World) : Py unit := λ w, (Return tt, f w).

Definition log (ev : Event) : Py unit := modify (set_trace (λ tr, tr ++ [ev])).

(** The oracle's verdict on the call of [op] that was just logged. *)
Definition fault (op : Op) : Py unit :=
  λ w, match faults w op (count op (trace w)) with
       | Some e => (Raise (exn_of e), w)
       | None => (Return tt, w)
       end.

(** The next integer of the tape. *)
Definition draw : Py Z :=
  λ w, (Return (tape w (drawn w)), set_drawn S w).

(** ** Context managers *)

(** The protocol of the [with] statement: [__enter__] gives the value bound
    by [as]; [__exit__] receives the exception of the block, if any, and
    says whether to suppress it. *)
Class ContextManager (T V : Type) := {
  enter : T → Py V;
  exit : T → option Exn → Py bool;
}.

(** [with expr as v: body] *)
Definition with_ {T V} `{ContextManager T V} (expr : Py T) (body : V → Py unit) : Py unit :=
  mgr ← expr;
  v ← enter mgr;
  r ← try (body v);
  match r with
  | Return _ => exit mgr None;; mret tt
  | Raise e =>
      suppress ← handling e (exit mgr (Some e));
      if suppress : bool then mret tt else reraise e
  end.

(** ** The database client *)

Module Psycopg2.

(** Connection and cursor objects, named by their position in the
    world. *)
Inductive connection := Connection (c : nat).
Inductive cursor_object := CursorObject (k : nat).

Definition closed_conn (c : nat) (w : World) : bool :=
  match conns w !! c with
  | Some o => conn_closed o
  | None => true
  end.

Definition pending (c : nat) (w : World) : list (string * Row) :=
  match conns w !! c with
  | Some o => conn_pending o
  | None => []
  end.

Definition set_pending (c : nat) (p : list (string * Row)) : World → World :=
  set_conns (alter (λ o, {| conn_closed := conn_closed o; conn_pending := p |}) c).

Definition check_open (c : nat) : Py unit :=
  closed ← get (closed_conn c);
  if closed : bool then raise "InterfaceError" "connection already closed" else mret tt.

(** [psycopg2.connect(user=..., password=..., dbname=..., host=...)]: a
    new connection object, open, with no transaction. *)
Definition connect (user password dbname host : string) : Py connection :=
  log (EvConnect user password dbname host);;
  fault OpConnect;;
  c ← get (λ w, length (conns w));
  modify (set_conns (λ cs, cs ++ [{| conn_closed := false; conn_pending := [] |}]));;
  mret (Connection c).

(** [conn.cursor()] *)
Definition cursor '(Connection c) : Py cursor_object :=
  check_open c;;
  k ← get (λ w, length (cursors w));
  modify (set_cursors (λ ks, ks ++ [{| cur_conn := c; cur_closed := false |}]));;
  mret (CursorObject k).

(** [cur.close()] *)
Definition cursor_close '(CursorObject k) : Py unit :=
  modify (set_cursors (alter (λ o, {| cur_conn := cur_conn o; cur_closed := true |}) k)).

(** [cur.execute(sql, args)]: the statement joins the transaction of the
    connection; nothing is committed. *)
Definition execute '(CursorObject k) (sql : string) (args : list PyValue) : Py unit :=
  cur ← get (λ w, cursors w !! k);
  match cur with
  | None => raise "InterfaceError" "cursor already closed"
  | Some o =>
      if cur_closed o then raise "InterfaceError" "cursor already closed"
      else
        let c := cur_conn o in
        check_open c;;
        log (EvExecute c sql args);;
        now ← get clock;
        match Sql.row_of sql args now with
        | None => raise "ProgrammingError" "statement and arguments do not match"
        | Some r =>
            fault OpExecute;;
            p ← get (pending c);
            modify (set_pending c (p ++ [r]))
        end
  end.

(** Appending the rows of a transaction to their tables. *)
Definition apply (p : list (string * Row)) (ts : gmap string (list Row)) : gmap string (list Row) :=
  foldl (λ ts tr, <[tr.1 := default [] (ts !! tr.1) ++ [tr.2]]> ts) ts p.

(** The client finds the connection broken and marks it closed. *)
Definition break (c : nat) : World → World :=
  set_conns (alter (λ _, {| conn_closed := true; conn_pending := [] |}) c).

(** [conn.commit()]. When it succeeds the rows of the transaction are in
    their tables. When it fails the transaction is over all the same: a
    refused commit leaves nothing committed and the connection open; a
    broken connection is marked closed, and the rows are in their tables
    or not according to whether the server had applied the commit. *)
Definition commit '(Connection c) : Py unit :=
  check_open c;;
  log (EvCommit c);;
  p ← get (pending c);
  verdict ← get (λ w, faults w OpCommit (count OpCommit (trace w)));
  match verdict with
  | None =>
      modify (set_tables (apply p));;
      modify (set_pending c [])
  | Some e =>
      how ← get (λ w, commit_failure w (count OpCommit (trace w)));
      match how with
      | Refused => modify (set_pending c [])
      | Broken applied =>
          (if applied then modify (set_tables (apply p)) else mret tt);;
          modify (break c)
      end;;
      reraise (exn_of e)
  end.

(** [conn.rollback()] *)
Definition rollback '(Connection c) : Py unit :=
  check_open c;;
  log (EvRollback c);;
  fault OpRollback;;
  modify (set_pending c []).

(** [conn.close()]: the server discards the open transaction. *)
Definition close '(Connection c) : Py unit :=
  log (EvClose c);;
  modify (set_conns (alter (λ _, {| conn_closed := true; conn_pending := [] |}) c)).

(** [with conn:] commits when the block ends normally and rolls back when
    it raises. As the documentation of psycopg2 says, leaving the block ends
    the transaction and does not close the connection, which can be used in
    further [with] blocks; only [conn.close()] closes it. [__exit__] returns
    [None], so the exception of the block is raised again. *)
#[export] Instance connection_manager : ContextManager connection connection := {
  enter conn := (let 'Connection c := conn in check_open c);; mret conn;
  exit conn exc :=
    match exc with
    | None => commit conn
    | Some _ => rollback conn
    end;;
    mret false;
}.

(** [with conn.cursor() as cur:] closes the cursor when the block ends. *)
#[export] Instance cursor_manager : ContextManager cursor_object cursor_object := {
  enter cur := mret cur;
  exit cur _ := cursor_close cur;; mret false;
}.

End Psycopg2.

(** ** The standard library *)

Module Os.

(** [os.environ[name]] *)
Definition environ_get (environ : gmap string string) (name : string) : Outcome string :=
  match environ !! name with
  | Some v => Return v
  | None => Raise (exn_of {| cls := "KeyError"; msg := name |})
  end.

End Os.

Module Random.

(** [_randbelow(n)] for [0 < n]: some integer of [0 .. n-1], here the next
    integer of the tape reduced to that range. *)
Definition randbelow (n : Z) : Py Z :=
  r ← draw; mret (r mod n).

(** [random.choice(seq)] *)
Definition choice (seq : list string) : Py string :=
  match seq with
  | [] => raise "IndexError" "Cannot choose from an empty sequence"
  | d :: _ =>
      i ← randbelow (Z.of_nat (length seq));
      mret (nth (Z.to_nat i) seq d)
  end.

(** [random.random()]: 53 random bits [k], as the float [k / 2^53]. *)
Definition random : Py Float64.float :=
  r ← draw; mret (r mod 2 ^ 53).

(** [random.uniform(a, b)] on two [int]s: [a + (b - a) * self.random()]. *)
Definition uniform (a b : Z) : Py Float64.float :=
  r ← random;
  mret (Float64.add (Float64.of_int a) (Float64.mul (Float64.of_int (b - a)) r)).

End Random.

(** [str(uuid.uuid4())] *)
Definition str_uuid4 : Py string :=
  r ← draw; mret (Uuid.str (Uuid.uuid4 r)).

(** ** The module *)

Import Psycopg2.

(** The four globals read from the environment when the module loads. *)
Record Config := {
  DB_USER : string;
  DB_PASS : string;
  DB_NAME : string;
  DB_HOST : string;
}.

Definition SQL_QUERY : string := "
INSERT INTO public.vitals_events (
  event_id, patient_id, loinc_code, code_display,
  value_num, unit, effective_ts, source, raw
) VALUES (%s,%s,%s,%s,%s,%s,NOW(),%s,%s)
".

(** A connection whose object the interpreter frees: psycopg2 closes it. *)
Definition free (o : Conn) : Conn := {| conn_closed := true; conn_pending := [] |}.

(** Freeing the connection objects created since there were [n]. *)
Definition teardown (n : nat) : World → World :=
  set_conns (λ cs, take n cs ++ (free <$> drop n cs)).

(** The call of a function whose local variables hold the only references
    to the connection objects it creates, as [conn] and [cur] do in
    [insert_row]. On a normal return the frame is torn down and the
    interpreter frees these objects. When the call raises, the traceback of
    the exception refers to the frame and the objects stay as they are; what
    happens once the traceback is dropped is outside the model. *)
Definition call_frame {A} (body : Py A) : Py A :=
  λ w, match body w with
       | (Return a, w') => (Return a, teardown (length (conns w)) w')
       | (Raise e, w') => (Raise e, w')
       end.

Definition insert_row (g : Config) : Py unit :=
  call_frame (with_ (connect (DB_USER g) (DB_PASS g) (DB_NAME g) (DB_HOST g)) (λ conn,
    with_ (cursor conn) (λ cur,
      event_id ← str_uuid4;
      patient_id ← Random.choice ["P001"; "P002"; "P003"];
      x ← Random.uniform 60 100;
      execute cur SQL_QUERY
        [ PyStr event_id;
          PyStr patient_id;
          PyStr "8867-4";
          PyStr "Heart rate";
          PyFloat (Float64.round x 1);
          PyStr "beats/min";
          PyStr "synthetic";
          PyStr (JsonEncoder.dumps [("note", "fastapi demo")]) ]))).

Definition health : Py Dict :=
  mret [("status", "ok")].

Definition ingest (g : Config) : Py Dict :=
  insert_row g;;
  mret [("result", "inserted")].

(** ** Start-up and routing *)

(** The function objects registered as endpoints. *)
Inductive Endpoint :=
  | Health
  | Ingest.

Record Route := {
  route_method : string;
  route_path : string;
  route_endpoint : Endpoint;
}.

(** Loading the module: its statements run in order against the routes of
    [app], and stop at the first one that raises. *)
Definition Startup (A : Type) : Type := list Route → Outcome A * list Route.

#[export] Instance Startup_ret : MRet Startup := λ A a rs, (Return a, rs).

#[export] Instance Startup_bind : MBind Startup :=
  λ A B k m rs, match m rs with
                | (Return a, rs') => k a rs'
                | (Raise e, rs') => (Raise e, rs')
                end.

Definition lift {A} (r : Outcome A) : Startup A := λ rs, (r, rs).

(** [@app.get(path)] and [@app.post(path)] applied to a function. *)
Definition add_api_route (method path : string) (f : Endpoint) : Startup unit :=
  λ rs, (Return tt, rs ++ [{| route_method := method; route_path := path; route_endpoint := f |}]).

Definition module_body (environ : gmap string string) : Startup Config :=
  user ← lift (Os.environ_get environ "DB_USER");
  pass ← lift (Os.environ_get environ "DB_PASS");
  name ← lift (Os.environ_get environ "DB_NAME");
  instance ← lift (Os.environ_get environ "INSTANCE_CONNECTION_NAME");
  add_api_route "GET" "/" Health;;
  add_api_route "POST" "/ingest" Ingest;;
  mret {| DB_USER := user; DB_PASS := pass; DB_NAME := name;
          DB_HOST := "/cloudsql/" +:+ instance |}.

(** [app = FastAPI()] starts without routes. *)
Definition import_module (environ : gmap string string) : Outcome Config * list Route :=
  module_body environ [].

(** The routes of [app] once the module has loaded. *)
Definition module_routes : list Route :=
  [ {| route_method := "GET"; route_path := "/"; route_endpoint := Health |};
    {| route_method := "POST"; route_path := "/ingest"; route_endpoint := Ingest |} ].

(** The process: the server runs only if the module loaded. *)
Inductive Service :=
  | Down (e : Exn)
  | Up (g : Config) (routes : list Route).

Definition start (environ : gmap string string) : Service :=
  match import_module environ with
  | (Return g, routes) => Up g routes
  | (Raise e, _) => Down e
  end.

Record Response := {
  status : Z;
  content : option Dict;
}.

Definition call (g : Config) (f : Endpoint) : Py Dict :=
  match f with
  | Health => health
  | Ingest => ingest g
  end.

Definition find_route (routes : list Route) (method path : string) : option Endpoint :=
  (λ ir, route_endpoint ir.2) <$>
    list_find (λ r, route_method r = method ∧ route_path r = path) routes.

(** A request to the service: no answer when the process is down; otherwise
    the framework answers 200 with what the endpoint returns, 500 when it
    raises and 404 when no route matches. *)
Definition request (s : Service) (method path : string) : Py (option Response) :=
  match s with
  | Down _ => mret None
  | Up g routes =>
      match find_route routes method path with
      | None => mret (Some {| status := 404; content := None |})
      | Some f =>
          r ← try (call g f);
          match r with
          | Return d => mret (Some {| status := 200; content := Some d |})
          | Raise _ => mret (Some {| status := 500; content := None |})
          end
      end
  end.

(** ** What a call did *)

(** The events of [w'] that [w] did not have yet. *)
Definition new_events (w w' : World) : list Event :=
  drop (length (trace w)) (trace w').

(** The statements executed and the connections opened among some events. *)
Definition executed (evs : list Event) : list (string * list PyValue) :=
  omap (λ ev, match ev with EvExecute _ sql args => Some (sql, args) | _ => None end) evs.

(** The connections of [w] that are still open. *)
Definition open_conns (w : World) : list nat :=
  filter (λ c, closed_conn c w = false) (seq 0 (length (conns w))).

(** The rows that the statements among some events insert, each with its
    table, when the clock of the database reads [now]. *)
Definition statement_rows (now : Z) (evs : list Event) : list (string * Row) :=
  omap (λ sa, Sql.row_of sa.1 sa.2 now) (executed evs).

(** The first value listed under a name. *)
Fixpoint assoc {A} (name : string) (l : list (string * A)) : option A :=
  match l with
  | [] => None
  | (n, v) :: l' => if decide (n = name) then Some v else assoc name l'
  end.

(** The value of a column in a row. *)
Definition field (col : string) (r : Row) : option SqlValue := assoc col r.

(** The expression that a statement gives for a column. *)
Definition expr_for (col : string) (sql : string) : option Sql.Expr :=
  ins ← Sql.parse sql;
  assoc col (zip (Sql.columns ins) (Sql.exprs ins)).

(** The oracle's verdict on the next call of [op]. *)
Definition next_fault (op : Op) (w : World) : option Error :=
  faults w op (S (count op (trace w))).

(** ** One call of [insert_row], case by case *)

Definition connect_event (g : Config) : Event :=
  EvConnect (DB_USER g) (DB_PASS g) (DB_NAME g) (DB_HOST g).

(** The arguments of the statement, from the next three integers of the
    tape. *)
Definition args_of (w : World) : list PyValue :=
  let r0 := tape w (drawn w) in
  let r1 := tape w (S (drawn w)) in
  let r2 := tape w (S (S (drawn w))) in
  [ PyStr (Uuid.str (Uuid.uuid4 r0));
    PyStr (nth (Z.to_nat (r1 mod 3)) ["P001"; "P002"; "P003"] "P001");
    PyStr "8867-4";
    PyStr "Heart rate";
    PyFloat (Float64.round
               (Float64.add (Float64.of_int 60)
                  (Float64.mul (Float64.of_int (100 - 60)) (r2 mod 2 ^ 53))) 1);
    PyStr "beats/min";
    PyStr "synthetic";
    PyStr (JsonEncoder.dumps [("note", "fastapi demo")]) ].

Definition row_of_call (w : World) : Row :=
  zip ["event_id"; "patient_id"; "loinc_code"; "code_display"; "value_num";
       "unit"; "effective_ts"; "source"; "raw"]
      match map Sql.adapt (args_of w) with
      | [a1; a2; a3; a4; a5; a6; a7; a8] =>
          [a1; a2; a3; a4; a5; a6; SqlTimestamp (clock w); a7; a8]
      | _ => []
      end.

Definition vitals_events : string := "public.vitals_events".

(** How the next commit fails, if it does. *)
Definition next_commit_failure (w : World) : CommitFailure :=
  commit_failure w (S (count OpCommit (trace w))).

(** The world after a call that connected: one more connection, closed or
    not, with no transaction left; one more cursor, closed; three integers
    read from the tape; three more events, the last one [last]. *)
Definition after (g : Config) (w : World) (ts : gmap string (list Row))
    (closed : bool) (last : Event) : World :=
  {| tables := ts;
     clock := clock w;
     conns := conns w ++ [{| conn_closed := closed; conn_pending := [] |}];
     cursors := cursors w ++ [{| cur_conn := length (conns w); cur_closed := true |}];
     trace := trace w ++ [connect_event g;
                          EvExecute (length (conns w)) SQL_QUERY (args_of w);
                          last];
     tape := tape w;
     drawn := S (S (S (drawn w)));
     faults := faults w;
     commit_failure := commit_failure w |}.

Definition insert_row_cases (g : Config) (w : World) : Outcome unit * World :=
  let c := length (conns w) in
  let r := (vitals_events, row_of_call w) in
  match next_fault OpConnect w with
  | Some e => (Raise (exn_of e), set_trace (λ tr, tr ++ [connect_event g]) w)
  | None =>
      match next_fault OpExecute w with
      | Some e =>
          match next_fault OpRollback w with
          | Some e' =>
              (Raise (chain (exn_of e') (exn_of e)),
               after g w (tables w) false (EvRollback c))
          | None => (Raise (exn_of e), after g w (tables w) false (EvRollback c))
          end
      | None =>
          match next_fault OpCommit w with
          | Some e =>
              match next_commit_failure w with
              | Refused => (Raise (exn_of e), after g w (tables w) false (EvCommit c))
              | Broken applied =>
                  (Raise (exn_of e),
                   after g w (if applied then apply [r] (tables w) else tables w)
                     true (EvCommit c))
              end
          | None => (Return tt, after g w (apply [r] (tables w)) true (EvCommit c))
          end
      end
  end.

(** The last client call of a call that connected. *)
Definition last_event (w : World) : Event :=
  match next_fault OpExecute w with
  | Some _ => EvRollback (length (conns w))
  | None => EvCommit (length (conns w))
  end.

(** The patient and the value drawn by one call. *)
Definition patient_of (w : World) : string :=
  nth (Z.to_nat (tape w (S (drawn w)) mod 3)) ["P001"; "P002"; "P003"] "P001".

Definition value_of (w : World) : Float64.float :=
  Float64.round
    (Float64.add (Float64.of_int 60)
       (Float64.mul (Float64.of_int (100 - 60)) (tape w (S (S (drawn w))) mod 2 ^ 53))) 1.

(** ** Sample inputs *)

Definition sample_config : Config :=
  {| DB_USER := "ingest"; DB_PASS := "secret"; DB_NAME := "vitals";
     DB_HOST := "/cloudsql/project:region:instance" |}.

Definition sample_environ : gmap string string :=
  {[ "DB_USER" := "ingest"; "DB_PASS" := "secret"; "DB_NAME" := "vitals";
     "INSTANCE_CONNECTION_NAME" := "project:region:instance" ]}.

Definition sample_tape (n : nat) : Z :=
  match n with
  | O => 0x123456789abcdef0123456789abcdef0
  | 1%nat => 7
  | _ => 1234567890123456
  end.

(** A fresh process in front of an empty database, with the faults [f]. *)
Definition sample_world (f : Op → nat → option Error) : World :=
  {| tables := ∅; clock := 1700000000; conns := []; cursors := []; trace := [];
     tape := sample_tape; drawn := 0; faults := f; commit_failure := λ _, Refused |}.

Definition no_fault : Op → nat → option Error := λ _ _, None.

Definition unique_violation : Error :=
  {| cls := "UniqueViolation"; msg := "duplicate key value violates unique constraint" |}.

Definition server_down : Error :=
  {| cls := "OperationalError"; msg := "could not connect to server" |}.

Definition connection_lost : Error :=
  {| cls := "OperationalError"; msg := "server closed the connection unexpectedly" |}.

(** The first [execute] fails. *)
Definition execute_fault : Op → nat → option Error :=
  λ op n, match op, n with
          | OpExecute, 1%nat => Some unique_violation
          | _, _ => None
          end.

(** The first [connect] fails. *)
Definition connect_fault : Op → nat → option Error :=
  λ op n, match op, n with
          | OpConnect, 1%nat => Some server_down
          | _, _ => None
          end.

(** The note stored in the [raw] column, as [json.dumps] writes it. *)
Definition raw_note : string :=
  "{" +:+ dquote +:+ "note" +:+ dquote +:+ ": " +:+ dquote +:+ "fastapi demo" +:+ dquote +:+ "}".

(** The variables that the module reads from the environment, in the order
    in which it reads them. *)
Definition required : list string :=
  ["DB_USER"; "DB_PASS"; "DB_NAME"; "INSTANCE_CONNECTION_NAME"].

Definition missing (environ : gmap string string) : list string :=
  filter (λ v, environ !! v = None) required.

(** ** Further inputs and measures *)

(** The first [commit] fails. *)
Definition commit_fault : Op → nat → option Error :=
  λ op n, match op, n with
          | OpCommit, 1%nat => Some connection_lost
          | _, _ => None
          end.

(** A fresh process in front of an empty database, whose first commit
    fails in the way [how]. *)
Definition commit_fault_world (how : CommitFailure) : World :=
  {| tables := ∅; clock := 1700000000; conns := []; cursors := []; trace := [];
     tape := sample_tape; drawn := 0; faults := commit_fault;
     commit_failure := λ _, how |}.

(** The commit of a call is applied and its reply lost. *)
Definition reply_lost (w : World) : Prop :=
  next_fault OpConnect w = None ∧ next_fault OpExecute w = None ∧
  is_Some (next_fault OpCommit w) ∧ next_commit_failure w = Broken true.

(** Requests that arrive one after the other, each a method and a path,
    with their answers. *)
Fixpoint serve (s : Service) (reqs : list (string * string)) : Py (list (option Response)) :=
  match reqs with
  | [] => mret []
  | q :: reqs' =>
      r ← request s q.1 q.2;
      rs ← serve s reqs';
      mret (r :: rs)
  end.

(** A [POST /ingest] answered with 200, and their number among requests
    with their answers. *)
Definition ingest_ok (q : string * string) (r : option Response) : bool :=
  bool_decide (q = ("POST", "/ingest")) && bool_decide (status <$> r = Some 200).

Fixpoint ingests_ok (reqs : list (string * string)) (rs : list (option Response)) : nat :=
  match reqs, rs with
  | q :: reqs', r :: rs' => ((if ingest_ok q r then 1 else 0) + ingests_ok reqs' rs')%nat
  | _, _ => 0%nat
  end.

(** The [POST /ingest] among requests. *)
Definition is_ingest (q : string * string) : bool :=
  bool_decide (q = ("POST", "/ingest")).

Fixpoint ingests (reqs : list (string * string)) : nat :=
  match reqs with
  | q :: reqs' => ((if is_ingest q then 1 else 0) + ingests reqs')%nat
  | [] => 0%nat
  end.

(** The connections of a list that are open. *)
Definition open_among (cs : list Conn) : nat :=
  length (filter (λ o, conn_closed o = false) cs).

(** No commit of the run is applied by the server with its reply lost. *)
Definition no_reply_lost (w : World) : Prop :=
  ∀ n, commit_failure w n ≠ Broken true.

(** From [w] to [w'], for requests of which [hi] were [POST /ingest] and
    [lo] of these were answered with 200: between [lo] and [hi] rows more in
    [public.vitals_events], exactly [lo] when no reply to a commit is lost,
    and nothing else committed; the connections of [w] as they were,
    followed by at most [hi] new ones, of which at most [hi - lo] are
    open. *)
Definition grows (w w' : World) (lo hi : nat) : Prop :=
  commit_failure w' = commit_failure w ∧
  (∃ news, rows w' vitals_events = rows w vitals_events ++ news ∧
           (lo ≤ length news ≤ hi)%nat ∧
           (no_reply_lost w → length news = lo)) ∧
  (∀ t, t ≠ vitals_events → rows w' t = rows w t) ∧
  (∃ new, conns w' = conns w ++ new ∧ (length new ≤ hi)%nat ∧
          (open_among new + lo ≤ hi)%nat).

(** [round(60 + 40 * r, 1)] for the draw [k] of [random()]. *)
Definition value_of_draw (k : Z) : Float64.float :=
  Float64.round
    (Float64.add (Float64.of_int 60)
       (Float64.mul (Float64.of_int (100 - 60)) (k mod 2 ^ 53))) 1.

(** A draw of [random()] for which that value is [t / 10]. *)
Definition draw_for_tenths (t : Z) : Z :=
  Z.min (2 ^ 53 - 1) (((t - 600) * 2 ^ 53) / 400).

(** The decimals from 60.0 to 100.0, in tenths. *)
Definition tenths : list Z := seqZ 600 401.

(** ** The text of a UUID *)

(** The hexadecimal digit of weight [16^k] of [u]. *)
Definition nibble (u : Z) (k : nat) : Z := Nat.iter k (λ q, q / 16) u mod 16.

Definition hyphen : Ascii.ascii := Ascii.ascii_of_nat 45.

(** 32 characters in groups of 8-4-4-4-12, and back. *)
Definition hyphenate (h : list Ascii.ascii) : list Ascii.ascii :=
  take 8 h ++ hyphen :: take 4 (drop 8 h) ++ hyphen :: take 4 (drop 12 h) ++ hyphen ::
  take 4 (drop 16 h) ++ hyphen :: drop 20 h.

Definition unhyphen (cs : list Ascii.ascii) : list Ascii.ascii :=
  take 8 cs ++ take 4 (drop 9 cs) ++ take 4 (drop 14 cs) ++ take 4 (drop 19 cs) ++ drop 24 cs.

(** The 32 digits of a UUID from the characters of its digits, the most
    significant first. *)
Definition digits (c : nat → Ascii.ascii) : list Ascii.ascii := map c (rev (seq 0 32)).

Definition uuid_chars (u : Z) : list Ascii.ascii :=
  hyphenate (digits (λ k, Uuid.hex_digit (nibble u k))).

(** The shape of the text of a version 4 UUID: 36 characters, hyphens at
    8, 13, 18 and 23, lower-case hexadecimal digits elsewhere, the version
    digit 4 at 14 and a variant digit 8, 9, a or b at 19. *)
Definition is_hex_char (c : Ascii.ascii) : bool :=
  let n := Ascii.nat_of_ascii c in
  ((48 <=? n) && (n <=? 57) || (97 <=? n) && (n <=? 102))%nat.

(** The character at place [i] is one of those written in [l]. *)
Definition char_at (cs : list Ascii.ascii) (i : nat) (l : list string) : bool :=
  match cs !! i with
  | Some c => bool_decide (String c EmptyString ∈ l)
  | None => false
  end.

Definition hyphen_places : list nat := [8; 13; 18; 23]%nat.

Definition hex_places : list nat :=
  seq 0 8 ++ seq 9 4 ++ seq 14 4 ++ seq 19 4 ++ seq 24 12.

Definition uuid4_shape_chars (cs : list Ascii.ascii) : bool :=
  (length cs =? 36)%nat
  && forallb (λ i, bool_decide (cs !! i = Some hyphen)) hyphen_places
  && forallb (λ i, match cs !! i with Some c => is_hex_char c | None => false end)
       hex_places
  && char_at cs 14 ["4"]
  && char_at cs 19 ["8"; "9"; "a"; "b"].

Definition uuid4_shape (s : string) : bool :=
  uuid4_shape_chars (String.list_ascii_of_string s).

(** The bits that [uuid4] overwrites, what it writes there, and the bits of
    the random bytes that it keeps. *)
Definition uuid4_fixed_mask : Z := Z.lor (Z.shiftl 0xc000 48) (Z.shiftl 0xf000 64).
Definition uuid4_fixed_bits : Z := Z.lor (Z.shiftl 0x8000 48) (Z.shiftl 4 76).
Definition free_bits (r : Z) : Z := Z.land (r mod 2 ^ 128) (Z.lnot uuid4_fixed_mask).

(** The places of the bits that [uuid4] overwrites: the variant and the
    version. *)
Definition fixed_places : list Z := [62; 63; 76; 77; 78; 79].

Definition free_mask : Z := Z.land (Z.ones 128) (Z.lnot uuid4_fixed_mask).

(** * Properties *)

(** ** Rounding *)

Section Float64Facts.
Import Float64.

(** Rounding to an integer stays between the integers around the value. *)
Lemma rne_div_ge a n d : 0 < d → a * d ≤ n → a ≤ rne_div n d.
Proof.
  intros Hd Ha. unfold rne_div.
  pose proof (Z.div_mod n d ltac:(lia)) as Hn.
  pose proof (Z.mod_pos_bound n d Hd) as Hr.
  assert (a ≤ n / d) by (apply Z.div_le_lower_bound; lia).
  destruct (2 * (n mod d) ?= d); [destruct (Z.even (n / d))| |]; lia.
Qed.

Lemma rne_div_le b n d : 0 < d → n ≤ b * d → rne_div n d ≤ b.
Proof.
  intros Hd Hb. unfold rne_div.
  pose proof (Z.div_mod n d ltac:(lia)) as Hn.
  pose proof (Z.mod_pos_bound n d Hd) as Hr.
  assert (n / d ≤ b) by (apply Z.div_le_upper_bound; lia).
  destruct (Z.compare_spec (2 * (n mod d)) d) as [He|Hlt|Hgt];
    [destruct (Z.even (n / d))| |]; try lia; nia.
Qed.

Lemma is_float_spec x :
  is_float x = true ↔ 0 ≤ x ∧ (ulp_exp x ≤ 0 ∨ x mod 2 ^ ulp_exp x = 0).
Proof.
  unfold is_float. rewrite andb_true_iff, orb_true_iff.
  rewrite !Z.leb_le, Z.eqb_eq. tauto.
Qed.

(** Rounding never goes below a float that the value is not below. *)
Lemma nearest_ge lo n d :
  0 < d → is_float lo = true → lo * d ≤ n → lo ≤ nearest n d.
Proof.
  intros Hd [Hlo Hgrid]%is_float_spec Hn. unfold nearest.
  assert (lo ≤ n / d) as Hv by (apply Z.div_le_lower_bound; lia).
  destruct (Z.leb_spec (ulp_exp (n / d)) 0) as [Hs|Hs].
  { by apply rne_div_ge. }
  unfold ulp_exp in *.
  set (s := Z.log2 (n / d) - 52) in *.
  assert (0 < 2 ^ s) by (apply Z.pow_pos_nonneg; lia).
  assert (Z.log2 lo ≤ Z.log2 (n / d)) as Hmono by (by apply Z.log2_le_mono).
  destruct (decide (Z.log2 lo - 52 = s)) as [Heq|Hne].
  - rewrite Heq in Hgrid. destruct Hgrid as [?|Hmod]; [lia|].
    apply Z.mod_divide in Hmod as [m ->]; [|lia].
    rewrite (Z.mul_comm m). apply Z.mul_le_mono_nonneg_l; [lia|].
    apply rne_div_ge; [lia|]. lia.
  - assert (0 < n / d) as Hpos.
    { destruct (decide (0 < n / d)); [done|].
      exfalso. subst s. rewrite (Z.log2_nonpos (n / d)) in Hs by lia. lia. }
    pose proof (Z.log2_spec (n / d) Hpos) as [Hlow _].
    assert (2 ^ 52 ≤ rne_div n (d * 2 ^ s)) as Hq.
    { apply rne_div_ge; [lia|].
      assert (2 ^ 52 * 2 ^ s ≤ n / d) as Hb.
      { rewrite <- Z.pow_add_r by lia.
        replace (52 + s) with (Z.log2 (n / d)) by (subst s; lia). done. }
      pose proof (Z.mul_div_le n d Hd). nia. }
    assert (lo < 2 ^ (52 + s)) as Hlt.
    { destruct (decide (lo = 0)) as [->|]; [apply Z.pow_pos_nonneg; lia|].
      pose proof (Z.log2_spec lo ltac:(lia)) as [_ Hup].
      eapply Z.lt_le_trans; [exact Hup|].
      apply Z.pow_le_mono_r; lia. }
    rewrite Z.pow_add_r in Hlt by lia. nia.
Qed.

(** Rounding never goes above a float that the value is not above. *)
Lemma nearest_le hi n d :
  0 < d → is_float hi = true → 0 ≤ n → n ≤ hi * d → nearest n d ≤ hi.
Proof.
  intros Hd [Hhi Hgrid]%is_float_spec Hn0 Hn. unfold nearest.
  assert (n / d ≤ hi) as Hv by (apply Z.div_le_upper_bound; lia).
  assert (0 ≤ n / d) as Hv0 by (apply Z.div_pos; lia).
  destruct (Z.leb_spec (ulp_exp (n / d)) 0) as [Hs|Hs].
  { by apply rne_div_le. }
  unfold ulp_exp in *.
  set (s := Z.log2 (n / d) - 52) in *.
  assert (0 < 2 ^ s) by (apply Z.pow_pos_nonneg; lia).
  assert (Z.log2 (n / d) ≤ Z.log2 hi) as Hmono by (by apply Z.log2_le_mono).
  destruct (decide (Z.log2 hi - 52 = s)) as [Heq|Hne].
  - rewrite Heq in Hgrid. destruct Hgrid as [?|Hmod]; [lia|].
    apply Z.mod_divide in Hmod as [m Hm]; [|lia].
    assert (rne_div n (d * 2 ^ s) ≤ m); [|nia].
    apply rne_div_le; [lia|]. nia.
  - assert (0 < n / d) as Hpos.
    { destruct (decide (0 < n / d)); [done|].
      exfalso. subst s. rewrite (Z.log2_nonpos (n / d)) in Hs by lia. lia. }
    pose proof (Z.log2_spec (n / d) Hpos) as [_ Hup].
    assert (rne_div n (d * 2 ^ s) ≤ 2 ^ 53) as Hq.
    { apply rne_div_le; [lia|].
      assert (n / d < 2 ^ 53 * 2 ^ s) as Hb.
      { rewrite <- Z.pow_add_r by lia.
        replace (53 + s) with (Z.succ (Z.log2 (n / d))) by (subst s; lia). done. }
      pose proof (Z.div_mod n d ltac:(lia)).
      pose proof (Z.mod_pos_bound n d Hd). nia. }
    assert (2 ^ (53 + s) ≤ hi) as Hle.
    { pose proof (Z.log2_spec hi ltac:(lia)) as [Hlow _].
      eapply Z.le_trans; [|exact Hlow].
      apply Z.pow_le_mono_r; lia. }
    rewrite Z.pow_add_r in Hle by lia. nia.
Qed.

(** The floats 60.0, 40.0 and 100.0. *)
Lemma of_int_60 : of_int 60 = 60 * unit.
Proof. vm_compute. reflexivity. Qed.

Lemma of_int_40 : of_int (100 - 60) = 40 * unit.
Proof. vm_compute. reflexivity. Qed.

Lemma of_int_100 : of_int 100 = 100 * unit.
Proof. vm_compute. reflexivity. Qed.

Lemma unit_pos : 0 < unit.
Proof. reflexivity. Qed.

(** What [random.uniform(60, 100)] returns lies between the floats 60.0 and
    100.0, both included. *)
Lemma uniform_60_100 r :
  0 ≤ r < unit →
  60 * unit ≤ add (of_int 60) (mul (of_int (100 - 60)) r) ≤ 100 * unit.
Proof.
  intros Hr. rewrite of_int_60, of_int_40. pose proof unit_pos as HU.
  unfold add, mul.
  assert (0 ≤ nearest (40 * unit * r) unit ≤ 40 * unit) as Hp.
  { split.
    - apply nearest_ge; [done|reflexivity|nia].
    - apply nearest_le; [done|by vm_compute|nia|nia]. }
  split.
  - apply nearest_ge; [lia|by vm_compute|lia].
  - apply nearest_le; [lia|by vm_compute|lia|lia].
Qed.

(** [round(x, 1)] of a float between 60.0 and 100.0 is the float of a
    decimal with one digit after the point, between 60.0 and 100.0. *)
Lemma round_60_100 x :
  60 * unit ≤ x ≤ 100 * unit →
  ∃ t, 600 ≤ t ≤ 1000 ∧ round x 1 = of_decimal t 1 ∧
       of_int 60 ≤ round x 1 ≤ of_int 100.
Proof.
  intros Hx. pose proof unit_pos as HU.
  exists (round_tenths x 1).
  assert (600 ≤ round_tenths x 1 ≤ 1000) as Ht.
  { unfold round_tenths. change (10 ^ 1) with 10. split.
    - apply rne_div_ge; lia.
    - apply rne_div_le; lia. }
  split; [done|]. split; [done|].
  rewrite of_int_60, of_int_100. unfold round, of_decimal.
  change (10 ^ 1) with 10. split.
  - apply nearest_ge; [lia|by vm_compute|nia].
  - apply nearest_le; [lia|by vm_compute|nia|nia].
Qed.

End Float64Facts.

(** ** Running the client *)

(** The row that [SQL_QUERY] makes of eight arguments. *)
Lemma row_of_SQL_QUERY a1 a2 a3 a4 a5 a6 a7 a8 now :
  Sql.row_of SQL_QUERY [a1; a2; a3; a4; a5; a6; a7; a8] now =
  Some ("public.vitals_events",
        [("event_id", Sql.adapt a1); ("patient_id", Sql.adapt a2);
         ("loinc_code", Sql.adapt a3); ("code_display", Sql.adapt a4);
         ("value_num", Sql.adapt a5); ("unit", Sql.adapt a6);
         ("effective_ts", SqlTimestamp now); ("source", Sql.adapt a7);
         ("raw", Sql.adapt a8)]).
Proof. reflexivity. Qed.

(** Counting calls, and the last object of the world. *)
Lemma count_snoc op tr ev :
  count op (tr ++ [ev]) = if is_op op ev then S (count op tr) else count op tr.
Proof.
  unfold count. rewrite filter_app, length_app.
  destruct (is_op op ev) eqn:E.
  - rewrite filter_cons_True, filter_nil by done. simpl. lia.
  - rewrite filter_cons_False, filter_nil by (rewrite E; done). simpl. lia.
Qed.

Lemma lookup_snoc {A} (l : list A) x : (l ++ [x]) !! length l = Some x.
Proof. by apply list_lookup_middle. Qed.

Lemma alter_snoc {A} (f : A → A) (l : list A) x :
  alter f (length l) (l ++ [x]) = l ++ [f x].
Proof.
  rewrite <- (Nat.add_0_r (length l)) at 1. by rewrite alter_app_r.
Qed.

(** The [with] statement, path by path. *)
Lemma with_run {T V} `{ContextManager T V} (expr : Py T) (body : V → Py unit) w :
  with_ expr body w =
  match expr w with
  | (Raise e, w1) => (Raise e, w1)
  | (Return mgr, w1) =>
      match enter mgr w1 with
      | (Raise e, w2) => (Raise e, w2)
      | (Return v, w2) =>
          match body v w2 with
          | (Return _, w3) =>
              match exit mgr None w3 with
              | (Return _, w4) => (Return tt, w4)
              | (Raise e, w4) => (Raise e, w4)
              end
          | (Raise e, w3) =>
              match exit mgr (Some e) w3 with
              | (Return true, w4) => (Return tt, w4)
              | (Return false, w4) => (Raise e, w4)
              | (Raise e', w4) => (Raise (chain e' e), w4)
              end
          end
      end
  end.
Proof.
  unfold with_, mbind, Py_bind, try, handling, mret, Py_ret, reraise.
  destruct (expr w) as [[mgr|e] w1]; [|done].
  destruct (enter mgr w1) as [[v|e] w2]; [|done].
  destruct (body v w2) as [[[]|e] w3].
  - by destruct (exit mgr None w3) as [[?|?] ?].
  - by destruct (exit mgr (Some e) w3) as [[[]|?] ?].
Qed.

(** From here on the library functions are used through their lemmas. *)
Opaque Sql.row_of Float64.round Float64.add Float64.mul Float64.of_int
  Uuid.str Uuid.uuid4 JsonEncoder.dumps SQL_QUERY.

(** Unfolding one client call. *)
Ltac run :=
  unfold connect, cursor, cursor_close, execute, commit, rollback, check_open,
    log, fault, modify, get, raise, closed_conn, pending,
    mbind, Py_bind, mret, Py_ret;
  cbn -[count].

(** [connect] logs the call and appends an open connection, unless the
    oracle makes it fail. *)
Lemma connect_run u p d h w :
  connect u p d h w =
  let w1 := set_trace (λ tr, tr ++ [EvConnect u p d h]) w in
  match next_fault OpConnect w with
  | Some e => (Raise (exn_of e), w1)
  | None =>
      (Return (Connection (length (conns w))),
       set_conns (λ cs, cs ++ [{| conn_closed := false; conn_pending := [] |}]) w1)
  end.
Proof.
  unfold next_fault. run. rewrite count_snoc. cbn.
  by destruct (faults w OpConnect _).
Qed.

(** The calls on a connection that is open. *)
Section OpenConnection.
Variables (c : nat) (o : Conn) (w : World).
Hypothesis Hconn : conns w !! c = Some o.
Hypothesis Hopen : conn_closed o = false.

Lemma check_open_run : check_open c w = (Return tt, w).
Proof. run. by rewrite Hconn, Hopen. Qed.

Lemma enter_run : enter (Connection c) w = (Return (Connection c), w).
Proof. cbn. unfold mbind, Py_bind. by rewrite check_open_run. Qed.

Lemma cursor_run :
  cursor (Connection c) w =
  (Return (CursorObject (length (cursors w))),
   set_cursors (λ ks, ks ++ [{| cur_conn := c; cur_closed := false |}]) w).
Proof. run. by rewrite Hconn, Hopen. Qed.

Lemma execute_run k sql args r :
  cursors w !! k = Some {| cur_conn := c; cur_closed := false |} →
  Sql.row_of sql args (clock w) = Some r →
  execute (CursorObject k) sql args w =
  let w1 := set_trace (λ tr, tr ++ [EvExecute c sql args]) w in
  match next_fault OpExecute w with
  | Some e => (Raise (exn_of e), w1)
  | None => (Return tt, set_pending c (conn_pending o ++ [r]) w1)
  end.
Proof.
  intros Hcur Hrow. unfold next_fault. run.
  rewrite Hcur. cbn -[count]. rewrite Hconn, Hopen, Hrow. cbn -[count].
  rewrite count_snoc. cbn.
  destruct (faults w OpExecute _); [done|]. cbn. by rewrite Hconn.
Qed.

Lemma commit_run :
  commit (Connection c) w =
  let w1 := set_trace (λ tr, tr ++ [EvCommit c]) w in
  match next_fault OpCommit w with
  | Some e =>
      (Raise (exn_of e),
       match next_commit_failure w with
       | Refused => set_pending c [] w1
       | Broken applied =>
           break c (if applied then set_tables (apply (conn_pending o)) w1 else w1)
       end)
  | None => (Return tt, set_pending c [] (set_tables (apply (conn_pending o)) w1))
  end.
Proof.
  unfold next_fault, next_commit_failure. run. rewrite Hconn, Hopen. cbn -[count].
  rewrite Hconn, count_snoc. cbn.
  destruct (faults w OpCommit _); [|done].
  unfold reraise. cbn -[count]. rewrite count_snoc. cbn.
  destruct (commit_failure w _) as [|[]]; reflexivity.
Qed.

Lemma rollback_run :
  rollback (Connection c) w =
  let w1 := set_trace (λ tr, tr ++ [EvRollback c]) w in
  match next_fault OpRollback w with
  | Some e => (Raise (exn_of e), w1)
  | None => (Return tt, set_pending c [] w1)
  end.
Proof.
  unfold next_fault. run. rewrite Hconn, Hopen. cbn -[count].
  rewrite count_snoc. cbn.
  by destruct (faults w OpRollback _).
Qed.
End OpenConnection.


(** The verdict of the oracle depends on the calls of the same kind only. *)
Lemma next_fault_ext op w w' :
  faults w' = faults w → count op (trace w') = count op (trace w) →
  next_fault op w' = next_fault op w.
Proof. unfold next_fault. by intros -> ->. Qed.

(** Worlds with the same components are equal. *)
Lemma world_ext w w' :
  tables w = tables w' → clock w = clock w' → conns w = conns w' →
  cursors w = cursors w' → trace w = trace w' → tape w = tape w' →
  drawn w = drawn w' → faults w = faults w' →
  commit_failure w = commit_failure w' → w = w'.
Proof. destruct w, w'; cbn; by intros -> -> -> -> -> -> -> -> ->. Qed.

(** A world built by the setters against its components written out. *)
Ltac world_eq :=
  apply world_ext;
  repeat match goal with x := _ |- _ => subst x end;
  unfold after, teardown, break, set_pending;
  cbn [tables clock conns cursors trace tape drawn faults commit_failure
       set_trace set_cursors set_conns set_drawn set_tables];
  rewrite ?alter_snoc, <- ?app_assoc;
  cbn [tables clock conns cursors trace tape drawn faults commit_failure
       set_trace set_cursors set_conns set_drawn set_tables];
  rewrite ?alter_snoc, ?take_app_length, ?drop_app_length;
  reflexivity.

(** [insert_row] does what [insert_row_cases] says, whatever the world. *)
Lemma insert_row_run g w : insert_row g w = insert_row_cases g w.
Proof.
  unfold insert_row, call_frame, insert_row_cases. rewrite with_run, connect_run.
  cbn zeta.
  destruct (next_fault OpConnect w) as [e|] eqn:Hconnect; [reflexivity|].
  set (c := length (conns w)).
  set (o := {| conn_closed := false; conn_pending := [] |}).
  set (w1 := set_conns _ _).
  assert (conns w1 !! c = Some o) as Hc by apply lookup_snoc.
  rewrite (enter_run c o w1 Hc eq_refl).
  rewrite with_run, (cursor_run c o w1 Hc eq_refl).
  set (k := length (cursors w1)).
  set (w2 := set_cursors _ w1).
  assert (cursors w2 !! k = Some {| cur_conn := c; cur_closed := false |}) as Hk
    by apply lookup_snoc.
  cbn [enter cursor_manager]. unfold mret at 1, Py_ret at 1.
  unfold str_uuid4, Random.choice, Random.uniform, Random.randbelow, Random.random, draw.
  unfold mbind, Py_bind, mret, Py_ret. cbn [length].
  set (w3 := set_drawn S (set_drawn S (set_drawn S w2))).
  change (execute (CursorObject k) SQL_QUERY _ w3)
    with (execute (CursorObject k) SQL_QUERY (args_of w) w3).
  rewrite (execute_run c o w3 Hc eq_refl k _ _ ("public.vitals_events", row_of_call w) Hk)
    by apply row_of_SQL_QUERY.
  rewrite (next_fault_ext OpExecute w w3) by (reflexivity || apply count_snoc).
  cbn zeta. set (w4 := set_trace _ w3).
  assert (∀ op, is_op op (connect_event g) = false →
                is_op op (EvExecute c SQL_QUERY (args_of w)) = false →
                ∀ w', trace w' = trace w4 → count op (trace w') = count op (trace w))
    as Hcount.
  { intros op H1 H2 w' Ht. rewrite Ht. cbn -[count]. rewrite !count_snoc.
    fold (connect_event g). rewrite H1, H2. reflexivity. }
  assert (∀ op, is_op op (connect_event g) = false →
                is_op op (EvExecute c SQL_QUERY (args_of w)) = false →
                ∀ w', faults w' = faults w → trace w' = trace w4 →
                next_fault op w' = next_fault op w) as Hnext.
  { intros op H1 H2 w' Hf Ht. apply next_fault_ext; [exact Hf|]. by apply Hcount. }
  destruct (next_fault OpExecute w) as [e|] eqn:Hexecute.
  - cbn [exit cursor_manager]. unfold cursor_close, modify, mbind, Py_bind, mret, Py_ret.
    set (w5 := set_cursors _ w4).
    cbn [exit connection_manager]. unfold mbind, Py_bind, mret, Py_ret.
    rewrite (rollback_run c o w5 Hc eq_refl), (Hnext OpRollback) by reflexivity.
    cbn zeta.
    destruct (next_fault OpRollback w) as [e'|]; apply (f_equal (pair _)); world_eq.
  - cbn [exit cursor_manager]. unfold cursor_close, modify, mbind, Py_bind, mret, Py_ret.
    set (w5 := set_cursors _ _).
    cbn [exit connection_manager]. unfold mbind, Py_bind, mret, Py_ret.
    assert (conns w5 !! c = Some {| conn_closed := false;
              conn_pending := [("public.vitals_events", row_of_call w)] |}) as Hc'.
    { clear. subst w5 w4 w3 w2 w1 c o. unfold set_pending.
      cbn [conns set_trace set_cursors set_conns set_drawn set_tables].
      rewrite alter_snoc. apply lookup_snoc. }
    rewrite (commit_run c _ w5 Hc' eq_refl), (Hnext OpCommit) by reflexivity.
    assert (next_commit_failure w5 = next_commit_failure w) as ->.
    { unfold next_commit_failure. by rewrite (Hcount OpCommit) by reflexivity. }
    cbn zeta.
    destruct (next_fault OpCommit w) as [e'|]; [|apply (f_equal (pair _)); world_eq].
    destruct (next_commit_failure w) as [|[]]; apply (f_equal (pair _)); world_eq.
Qed.

(** ** One call of the handlers *)

(** [ingest] adds its acknowledgement to what [insert_row] does. *)
Lemma ingest_run g w :
  ingest g w =
  match insert_row_cases g w with
  | (Return _, w') => (Return [("result", "inserted")], w')
  | (Raise e, w') => (Raise e, w')
  end.
Proof.
  unfold ingest, mbind, Py_bind. rewrite insert_row_run.
  by destruct (insert_row_cases g w) as [[[]|e] w'].
Qed.

(** The events of a call are what it appended to the trace. *)
Lemma new_events_app w w' evs : trace w' = trace w ++ evs → new_events w w' = evs.
Proof. unfold new_events. intros ->. apply drop_app_length. Qed.

(** The client calls of one request: a connection attempt, and when it
    succeeds one statement and the end of its transaction. *)
Lemma ingest_events g w :
  new_events w (ingest g w).2 =
  match next_fault OpConnect w with
  | Some _ => [connect_event g]
  | None => [connect_event g;
             EvExecute (length (conns w)) SQL_QUERY (args_of w);
             last_event w]
  end.
Proof.
  rewrite ingest_run. unfold insert_row_cases, last_event.
  destruct (next_fault OpConnect w); [by apply new_events_app|].
  destruct (next_fault OpExecute w).
  - destruct (next_fault OpRollback w); by apply new_events_app.
  - destruct (next_fault OpCommit w);
      [destruct (next_commit_failure w) as [|[]]|]; by apply new_events_app.
Qed.

(** The statement of a call inserts the row of the call. *)
Lemma statement_rows_call g w :
  statement_rows (clock w)
    [connect_event g; EvExecute (length (conns w)) SQL_QUERY (args_of w); last_event w]
  = [(vitals_events, row_of_call w)].
Proof.
  unfold statement_rows, executed, last_event.
  destruct (next_fault OpExecute w); cbn [omap list_omap connect_event];
    cbn [fst snd]; unfold args_of at 1; rewrite row_of_SQL_QUERY; reflexivity.
Qed.

(** The statement of one request and the row it inserts. *)
Lemma ingest_statement g w :
  statement_rows (clock w) (new_events w (ingest g w).2) =
  match next_fault OpConnect w with
  | Some _ => []
  | None => [(vitals_events, row_of_call w)]
  end.
Proof.
  rewrite ingest_events. destruct (next_fault OpConnect w); [done|].
  apply statement_rows_call.
Qed.

(** Counting the calls of a list written out. *)
Lemma count_cons op ev tr :
  count op (ev :: tr) = if is_op op ev then S (count op tr) else count op tr.
Proof.
  unfold count. destruct (is_op op ev) eqn:E.
  - by rewrite filter_cons_True.
  - rewrite filter_cons_False; [done|]. by rewrite E.
Qed.

Ltac count_events :=
  unfold connect_event; rewrite ?count_cons; cbn [is_op]; unfold count; cbn [filter length];
  rewrite ?filter_nil; cbn [length]; lia.

(** ** Requests *)

Lemma find_route_health : find_route module_routes "GET" "/" = Some Health.
Proof. vm_compute. reflexivity. Qed.

Lemma find_route_ingest : find_route module_routes "POST" "/ingest" = Some Ingest.
Proof. vm_compute. reflexivity. Qed.

(** [POST /ingest] on a running service: 200 with what [ingest] returns,
    500 when it raises. *)
Lemma request_ingest g w :
  request (Up g module_routes) "POST" "/ingest" w =
  match ingest g w with
  | (Return d, w') => (Return (Some {| status := 200; content := Some d |}), w')
  | (Raise _, w') => (Return (Some {| status := 500; content := None |}), w')
  end.
Proof.
  unfold request. rewrite find_route_ingest.
  unfold mbind, Py_bind, try, call.
  by destruct (ingest g w) as [[d|e] w'].
Qed.

(** ** Sample runs *)

(** [60 + 40 * random()] and [round(_, 1)] on three draws: 65.5 in the
    middle of the range, and the two ends 60.0 and 100.0. *)
Example round_sample :
  Float64.round
    (Float64.add (Float64.of_int 60)
       (Float64.mul (Float64.of_int (100 - 60)) 1234567890123456)) 1
  = Float64.of_decimal 655 1.
Proof. vm_compute. reflexivity. Qed.

Example uniform_bottom :
  Float64.add (Float64.of_int 60) (Float64.mul (Float64.of_int (100 - 60)) 0)
  = Float64.of_int 60.
Proof. vm_compute. reflexivity. Qed.

Example uniform_top :
  Float64.add (Float64.of_int 60)
    (Float64.mul (Float64.of_int (100 - 60)) (2 ^ 53 - 1))
  = Float64.of_int 100.
Proof. vm_compute. reflexivity. Qed.

(** A tie: 60.25 is a float, and [round(60.25, 1)] is 60.2. *)
Example round_tie :
  Float64.round (Float64.of_decimal 6025 2) 1 = Float64.of_decimal 602 1.
Proof. vm_compute. reflexivity. Qed.

Example uuid_sample :
  Uuid.str (Uuid.uuid4 0x123456789abcdef0123456789abcdef0)
  = "12345678-9abc-4ef0-9234-56789abcdef0".
Proof. vm_compute. reflexivity. Qed.

Example import_sample :
  import_module sample_environ = (Return sample_config, module_routes).
Proof. vm_compute. reflexivity. Qed.

Example import_without_password :
  import_module (delete "DB_PASS" sample_environ)
  = (Raise (exn_of {| cls := "KeyError"; msg := "DB_PASS" |}), []).
Proof. vm_compute. reflexivity. Qed.

(** One request against an empty database that answers: the row is
    committed, and the connection is closed once the call has returned. *)
Example ingest_sample :
  let w := sample_world no_fault in
  let w' := (ingest sample_config w).2 in
  (ingest sample_config w).1 = Return [("result", "inserted")] ∧
  rows w' vitals_events =
    [[("event_id", SqlText "12345678-9abc-4ef0-9234-56789abcdef0");
      ("patient_id", SqlText "P002");
      ("loinc_code", SqlText "8867-4");
      ("code_display", SqlText "Heart rate");
      ("value_num", SqlFloat (Float64.of_decimal 655 1));
      ("unit", SqlText "beats/min");
      ("effective_ts", SqlTimestamp 1700000000);
      ("source", SqlText "synthetic");
      ("raw", SqlText raw_note)]] ∧
  new_events w w' =
    [connect_event sample_config; EvExecute 0 SQL_QUERY (args_of w); EvCommit 0] ∧
  conns w' = [{| conn_closed := true; conn_pending := [] |}] ∧
  open_conns w' = [].
Proof. vm_compute. done. Qed.

(** ** The claims *)

(** C1 (the code does not do this). The specification has the connection
    acquired by [insert_row] closed before the call returns or raises. At
    the input
    below, where the statement violates a constraint, the exception
    propagates, the transaction is rolled back and the cursor is closed, but
    the connection object is still open and the client was never asked to
    close it: [with psycopg2.connect(...)] ends the transaction only. *)
Lemma insert_row_connection_left_open :
  let w := sample_world execute_fault in
  let w' := (insert_row sample_config w).2 in
  (insert_row sample_config w).1 = Raise (exn_of unique_violation) ∧
  new_events w w' =
    [connect_event sample_config; EvExecute 0 SQL_QUERY (args_of w); EvRollback 0] ∧
  conns w' = [{| conn_closed := false; conn_pending := [] |}] ∧
  cursors w' = [{| cur_conn := 0; cur_closed := true |}] ∧
  open_conns w' = [0%nat].
Proof. vm_compute. done. Qed.

(** No path of [insert_row] asks the client to close the connection it
    opened: whenever connecting succeeds there is one new connection object
    and no [close] among the client calls. When the statement fails, or the
    server refuses the commit, the object is open as the exception leaves
    the call; it is closed only by the loss of the link during the commit,
    or by the interpreter when the call returns and its frame is freed. *)
Lemma insert_row_never_closes g w :
  next_fault OpConnect w = None →
  let w' := (insert_row g w).2 in
  length (conns w') = S (length (conns w)) ∧
  (∀ c, EvClose c ∉ new_events w w') ∧
  (is_Some (next_fault OpExecute w) ∨
   (is_Some (next_fault OpCommit w) ∧ next_commit_failure w = Refused) →
   closed_conn (length (conns w)) w' = false).
Proof.
  intros Hc. rewrite insert_row_run. unfold insert_row_cases. rewrite Hc.
  assert (∀ ts closed last, (∀ c, last ≠ EvClose c) →
            length (conns (after g w ts closed last)) = S (length (conns w)) ∧
            (∀ c, EvClose c ∉ new_events w (after g w ts closed last)) ∧
            closed_conn (length (conns w)) (after g w ts closed last) = closed)
    as Hafter.
  { intros ts closed last Hlast. split; [|split].
    - unfold after. cbn [conns]. rewrite length_app. cbn. lia.
    - intros c. erewrite new_events_app by reflexivity.
      rewrite !elem_of_cons, elem_of_nil. unfold connect_event.
      intros [?|[?|[?|[]]]]; [done|done|by eapply Hlast].
    - unfold closed_conn, after. cbn [conns]. by rewrite lookup_snoc. }
  assert (∀ ts closed last, (∀ c, last ≠ EvClose c) →
            (closed = true → ¬ (is_Some (next_fault OpExecute w) ∨
               (is_Some (next_fault OpCommit w) ∧
                next_commit_failure w = Refused))) →
            length (conns (after g w ts closed last)) = S (length (conns w)) ∧
            (∀ c, EvClose c ∉ new_events w (after g w ts closed last)) ∧
            (is_Some (next_fault OpExecute w) ∨
             (is_Some (next_fault OpCommit w) ∧
              next_commit_failure w = Refused) →
             closed_conn (length (conns w)) (after g w ts closed last) = false))
    as Hcase.
  { intros ts closed last Hlast Hclosed.
    destruct (Hafter ts closed last Hlast) as (Hlen & Hev & Hconn).
    split; [done|]. split; [done|]. intros Hopen. rewrite Hconn.
    destruct closed; [|done]. by destruct Hclosed. }
  destruct (next_fault OpExecute w) as [e|] eqn:He.
  - destruct (next_fault OpRollback w); by apply Hcase.
  - destruct (next_fault OpCommit w) as [e|] eqn:Hm.
    + destruct (next_commit_failure w) as [|applied] eqn:Hh;
        apply Hcase; try done.
      intros _ [[? [=]]|[_ [=]]].
    + apply Hcase; [done|]. intros _ [[? [=]]|[[? [=]] _]].
Qed.

(** C2 (the claim is too strong). The claim has the table unchanged
    whenever the call fails. At the input below connecting and the statement
    succeed, the server applies the commit, and the link is lost before the
    client reads the reply: [conn.commit()] raises, so [ingest] raises
    [OperationalError], and the row of the call is in
    [public.vitals_events]. *)
Lemma ingest_not_atomic :
  let w := commit_fault_world (Broken true) in
  let w' := (ingest sample_config w).2 in
  (ingest sample_config w).1 = Raise (exn_of connection_lost) ∧
  rows w vitals_events = [] ∧
  rows w' vitals_events = [row_of_call w] ∧
  ¬ match ingest sample_config w with
    | (Return d, w') =>
        ∃ row, tables w' = <[vitals_events := rows w vitals_events ++ [row]]> (tables w) ∧
               rows w' vitals_events = rows w vitals_events ++ [row]
    | (Raise e, w') => tables w' = tables w
    end.
Proof.
  intros w w'.
  assert (ingest sample_config w
          = (Raise (exn_of connection_lost),
             after sample_config w (apply [(vitals_events, row_of_call w)] (tables w))
               true (EvCommit (length (conns w))))) as Hrun.
  { rewrite ingest_run. reflexivity. }
  assert (rows w' vitals_events = [row_of_call w]) as Hrows.
  { unfold w'. rewrite Hrun. unfold rows, after, apply.
    cbn [snd tables foldl fst]. rewrite lookup_insert_eq. reflexivity. }
  split; [by rewrite Hrun|]. split; [reflexivity|]. split; [exact Hrows|].
  fold w' in Hrows. unfold w' in Hrows. rewrite Hrun in Hrows |- *.
  cbn [snd] in Hrows. intros Heq. unfold rows in Hrows. rewrite Heq in Hrows.
  discriminate Hrows.
Qed.

(** C2, as the code has it. A call of [ingest] commits at most the one row
    of the call. When it returns, exactly one row was appended to
    [public.vitals_events] and nothing else was committed. When it raises,
    the committed tables are what they were, except when the link is lost
    during the final commit after the server applied it: then the call
    raises and exactly the row of the call was appended. *)
Theorem ingest_atomic_unless_reply_lost g w :
  match ingest g w with
  | (Return d, w') =>
      ∃ row, tables w' = <[vitals_events := rows w vitals_events ++ [row]]> (tables w) ∧
             rows w' vitals_events = rows w vitals_events ++ [row]
  | (Raise e, w') =>
      (¬ reply_lost w ∧ tables w' = tables w) ∨
      (reply_lost w ∧
       tables w' = <[vitals_events := rows w vitals_events ++ [row_of_call w]]> (tables w) ∧
       rows w' vitals_events = rows w vitals_events ++ [row_of_call w])
  end.
Proof.
  assert (∀ closed last,
            tables (after g w (apply [(vitals_events, row_of_call w)] (tables w)) closed last)
            = <[vitals_events := rows w vitals_events ++ [row_of_call w]]> (tables w) ∧
            rows (after g w (apply [(vitals_events, row_of_call w)] (tables w)) closed last)
              vitals_events
            = rows w vitals_events ++ [row_of_call w]) as Hrow.
  { intros closed last. unfold rows, after, apply. cbn [tables foldl fst snd].
    split; [reflexivity|]. by rewrite lookup_insert_eq. }
  rewrite ingest_run. unfold insert_row_cases, reply_lost.
  destruct (next_fault OpConnect w) as [e|] eqn:Hc.
  { left. split; [|done]. by intros [[=] _]. }
  destruct (next_fault OpExecute w) as [e|] eqn:He.
  { destruct (next_fault OpRollback w); left; (split; [|done]);
      by intros (_ & [=] & _). }
  destruct (next_fault OpCommit w) as [e|] eqn:Hm.
  - destruct (next_commit_failure w) as [|[]] eqn:Hh.
    + left. split; [|done]. by intros (_ & _ & _ & [=]).
    + right. split; [by eauto|]. apply Hrow.
    + left. split; [|done]. by intros (_ & _ & _ & [=]).
  - exists (row_of_call w). apply Hrow.
Qed.

(** C3. When connecting or executing the statement fails with [e], the
    call of [insert_row] and the call of [ingest] both raise, and the
    framework answers 500: the exception is [e], or, when the rollback of
    [with conn] fails too, the exception of the rollback with [e] as its
    context. The call made one attempt: one call of [connect], and one call
    of [execute] when connecting succeeded, none otherwise. *)
Theorem ingest_error_not_caught g w e :
  next_fault OpConnect w = Some e ∨
  (next_fault OpConnect w = None ∧ next_fault OpExecute w = Some e) →
  ∃ e' w',
    insert_row g w = (Raise e', w') ∧
    ingest g w = (Raise e', w') ∧
    request (Up g module_routes) "POST" "/ingest" w
      = (Return (Some {| status := 500; content := None |}), w') ∧
    carries e e' ∧
    (next_fault OpRollback w = None → e' = exn_of e) ∧
    count OpConnect (new_events w w') = 1%nat ∧
    count OpExecute (new_events w w') =
      match next_fault OpConnect w with Some _ => 0%nat | None => 1%nat end.
Proof.
  intros H. pose proof (ingest_events g w) as Hev. revert Hev.
  rewrite request_ingest, ingest_run, insert_row_run.
  unfold insert_row_cases, last_event.
  destruct H as [Hc|[Hc He]].
  - rewrite Hc. cbn [snd]. intros Hev. eexists _, _.
    split; [done|]. split; [done|]. split; [done|]. rewrite Hev.
    split; [by left|]. split; [done|]. split; count_events.
  - rewrite Hc, He. destruct (next_fault OpRollback w) as [e2|];
      cbn [snd]; intros Hev; eexists _, _;
      (split; [done|]); (split; [done|]); (split; [done|]); rewrite Hev.
    + split; [right; cbn; by left|]. split; [done|]. split; count_events.
    + split; [by left|]. split; [done|]. split; count_events.
Qed.

Lemma ingest_error_not_caught_witness :
  (next_fault OpConnect (sample_world execute_fault) = Some unique_violation ∨
   (next_fault OpConnect (sample_world execute_fault) = None ∧
    next_fault OpExecute (sample_world execute_fault) = Some unique_violation)) ∧
  ∃ e' w',
    insert_row sample_config (sample_world execute_fault) = (Raise e', w') ∧
    ingest sample_config (sample_world execute_fault) = (Raise e', w') ∧
    request (Up sample_config module_routes) "POST" "/ingest" (sample_world execute_fault)
      = (Return (Some {| status := 500; content := None |}), w') ∧
    carries unique_violation e' ∧
    (next_fault OpRollback (sample_world execute_fault) = None →
     e' = exn_of unique_violation) ∧
    count OpConnect (new_events (sample_world execute_fault) w') = 1%nat ∧
    count OpExecute (new_events (sample_world execute_fault) w') =
      match next_fault OpConnect (sample_world execute_fault) with
      | Some _ => 0%nat
      | None => 1%nat
      end.
Proof.
  split.
  - right. split; reflexivity.
  - apply (ingest_error_not_caught sample_config (sample_world execute_fault)
             unique_violation).
    right. split; reflexivity.
Defined.

(** The statement that the module sends. *)
Lemma SQL_QUERY_parsed :
  Sql.parse SQL_QUERY =
  Some {| Sql.target := vitals_events;
          Sql.columns := ["event_id"; "patient_id"; "loinc_code"; "code_display";
                          "value_num"; "unit"; "effective_ts"; "source"; "raw"];
          Sql.exprs := [Sql.Placeholder; Sql.Placeholder; Sql.Placeholder;
                        Sql.Placeholder; Sql.Placeholder; Sql.Placeholder;
                        Sql.Now; Sql.Placeholder; Sql.Placeholder] |}.
Proof. vm_compute. reflexivity. Qed.

(** C4. When [ingest] returns, it returns [{"result": "inserted"}], which
    the framework sends with status 200; the call executed one statement,
    the text [SQL_QUERY] with its eight values passed as arguments, and
    committed its row: [public.vitals_events] has exactly that row more, and
    every other table is unchanged. *)
Theorem ingest_success g w d w' :
  ingest g w = (Return d, w') →
  d = [("result", "inserted")] ∧
  request (Up g module_routes) "POST" "/ingest" w
    = (Return (Some {| status := 200; content := Some d |}), w') ∧
  ∃ args row,
    executed (new_events w w') = [(SQL_QUERY, args)] ∧
    length args = 8%nat ∧
    Sql.row_of SQL_QUERY args (clock w) = Some (vitals_events, row) ∧
    rows w' vitals_events = rows w vitals_events ++ [row] ∧
    ∀ t, t ≠ vitals_events → rows w' t = rows w t.
Proof.
  rewrite request_ingest, ingest_run. unfold insert_row_cases.
  destruct (next_fault OpConnect w); [done|].
  destruct (next_fault OpExecute w).
  { by destruct (next_fault OpRollback w). }
  destruct (next_fault OpCommit w);
    [by destruct (next_commit_failure w) as [|[]]|].
  intros [= <- <-]. split; [done|]. split; [done|].
  exists (args_of w), (row_of_call w).
  split; [by erewrite new_events_app by reflexivity|]. split; [done|].
  split; [unfold args_of; by rewrite row_of_SQL_QUERY|].
  unfold rows, after, apply. cbn [tables foldl fst snd]. split.
  - by rewrite lookup_insert_eq.
  - intros t Ht. by rewrite lookup_insert_ne.
Qed.

Lemma ingest_success_witness :
  ingest sample_config (sample_world no_fault)
  = (Return [("result", "inserted")], (ingest sample_config (sample_world no_fault)).2) ∧
  [("result", "inserted")] = [("result", "inserted")] ∧
  request (Up sample_config module_routes) "POST" "/ingest" (sample_world no_fault)
    = (Return (Some {| status := 200; content := Some [("result", "inserted")] |}),
       (ingest sample_config (sample_world no_fault)).2) ∧
  ∃ args row,
    executed (new_events (sample_world no_fault)
                (ingest sample_config (sample_world no_fault)).2) = [(SQL_QUERY, args)] ∧
    length args = 8%nat ∧
    Sql.row_of SQL_QUERY args (clock (sample_world no_fault)) = Some (vitals_events, row) ∧
    rows (ingest sample_config (sample_world no_fault)).2 vitals_events
    = rows (sample_world no_fault) vitals_events ++ [row] ∧
    ∀ t, t ≠ vitals_events →
         rows (ingest sample_config (sample_world no_fault)).2 t
         = rows (sample_world no_fault) t.
Proof.
  split.
  - vm_compute. reflexivity.
  - apply (ingest_success sample_config (sample_world no_fault)
             [("result", "inserted")]
             (ingest sample_config (sample_world no_fault)).2).
    vm_compute. reflexivity.
Defined.

(** C5. [health] returns [{"status": "ok"}] in every world and leaves the
    world as it is: no client call, no connection, no random draw, no row;
    the faults of the database and the calls made before play no part. So
    does [GET /] on the running service, with status 200. *)
Theorem health_ok w :
  health w = (Return [("status", "ok")], w) ∧
  ∀ g, request (Up g module_routes) "GET" "/" w
       = (Return (Some {| status := 200; content := Some [("status", "ok")] |}), w).
Proof.
  split; [reflexivity|]. intros g. unfold request. by rewrite find_route_health.
Qed.

(** The row of a call, column by column. *)
Lemma row_of_call_fields w :
  row_of_call w =
  [("event_id", SqlText (Uuid.str (Uuid.uuid4 (tape w (drawn w)))));
   ("patient_id", SqlText (patient_of w));
   ("loinc_code", SqlText "8867-4");
   ("code_display", SqlText "Heart rate");
   ("value_num", SqlFloat (value_of w));
   ("unit", SqlText "beats/min");
   ("effective_ts", SqlTimestamp (clock w));
   ("source", SqlText "synthetic");
   ("raw", SqlText (JsonEncoder.dumps [("note", "fastapi demo")]))].
Proof. reflexivity. Qed.

Lemma dumps_note : JsonEncoder.dumps [("note", "fastapi demo")] = raw_note.
Proof. vm_compute. reflexivity. Qed.

Lemma patient_of_known w : patient_of w ∈ ["P001"; "P002"; "P003"].
Proof.
  unfold patient_of.
  pose proof (Z.mod_pos_bound (tape w (S (drawn w))) 3 ltac:(lia)) as Hr.
  assert (Z.to_nat (tape w (S (drawn w)) mod 3) < 3)%nat as Hn by lia.
  destruct (Z.to_nat _) as [|[|[|n]]]; [repeat constructor..|lia].
Qed.

(** C6. A call of [ingest] executes no statement when connecting fails,
    and otherwise one statement, whose row for [public.vitals_events] has in
    [patient_id] one of [P001], [P002] and [P003]. *)
Theorem ingest_patient_id g w :
  match next_fault OpConnect w with
  | Some _ => statement_rows (clock w) (new_events w (ingest g w).2) = []
  | None =>
      ∃ row p,
        statement_rows (clock w) (new_events w (ingest g w).2) = [(vitals_events, row)] ∧
        field "patient_id" row = Some (SqlText p) ∧
        p ∈ ["P001"; "P002"; "P003"]
  end.
Proof.
  rewrite ingest_statement. destruct (next_fault OpConnect w); [done|].
  exists (row_of_call w), (patient_of w).
  split; [done|]. split; [by rewrite row_of_call_fields|].
  apply patient_of_known.
Qed.

(** C7. The row of the statement has in [value_num] a float between 60.0
    and 100.0, both included, which is the float of a decimal with one digit
    after the point: [t / 10] for an integer [t] between 600 and 1000. *)
Theorem ingest_value_num g w :
  match next_fault OpConnect w with
  | Some _ => statement_rows (clock w) (new_events w (ingest g w).2) = []
  | None =>
      ∃ row f t,
        statement_rows (clock w) (new_events w (ingest g w).2) = [(vitals_events, row)] ∧
        field "value_num" row = Some (SqlFloat f) ∧
        Float64.of_int 60 ≤ f ≤ Float64.of_int 100 ∧
        600 ≤ t ≤ 1000 ∧
        f = Float64.of_decimal t 1
  end.
Proof.
  rewrite ingest_statement. destruct (next_fault OpConnect w); [done|].
  destruct (round_60_100
              (Float64.add (Float64.of_int 60)
                 (Float64.mul (Float64.of_int (100 - 60))
                    (tape w (S (S (drawn w))) mod 2 ^ 53))))
    as (t & Ht & Hf & Hb).
  { apply uniform_60_100. apply Z.mod_pos_bound. reflexivity. }
  exists (row_of_call w), (value_of w), t.
  split; [done|]. split; [by rewrite row_of_call_fields|].
  unfold value_of. split; [exact Hb|]. split; [exact Ht|exact Hf].
Qed.

(** C9. The row of the statement has the constants ["8867-4"],
    ["Heart rate"], ["beats/min"] and ["synthetic"] in [loinc_code],
    [code_display], [unit] and [source], whatever the world and the
    configuration; the statement gives [NOW()] for [effective_ts], so that
    the row has the time of the database there, and none of its arguments. *)
Theorem ingest_constants g w :
  expr_for "effective_ts" SQL_QUERY = Some Sql.Now ∧
  match next_fault OpConnect w with
  | Some _ => executed (new_events w (ingest g w).2) = []
  | None =>
      ∃ args row,
        executed (new_events w (ingest g w).2) = [(SQL_QUERY, args)] ∧
        Sql.row_of SQL_QUERY args (clock w) = Some (vitals_events, row) ∧
        field "loinc_code" row = Some (SqlText "8867-4") ∧
        field "code_display" row = Some (SqlText "Heart rate") ∧
        field "unit" row = Some (SqlText "beats/min") ∧
        field "source" row = Some (SqlText "synthetic") ∧
        field "effective_ts" row = Some (SqlTimestamp (clock w))
  end.
Proof.
  split; [by vm_compute|].
  rewrite ingest_events. destruct (next_fault OpConnect w); [done|].
  exists (args_of w), (row_of_call w). split.
  { unfold last_event. by destruct (next_fault OpExecute w). }
  split; [unfold args_of; by rewrite row_of_SQL_QUERY|].
  by rewrite row_of_call_fields.
Qed.

(** C10. The last argument of the statement, which goes to the [raw]
    column, is the string [{"note": "fastapi demo"}], whatever the world,
    its tape of random integers and the configuration. *)
Theorem ingest_raw g w :
  match next_fault OpConnect w with
  | Some _ => executed (new_events w (ingest g w).2) = []
  | None =>
      ∃ args row,
        executed (new_events w (ingest g w).2) = [(SQL_QUERY, args)] ∧
        Sql.row_of SQL_QUERY args (clock w) = Some (vitals_events, row) ∧
        last args = Some (PyStr raw_note) ∧
        field "raw" row = Some (SqlText raw_note)
  end.
Proof.
  rewrite ingest_events. destruct (next_fault OpConnect w); [done|].
  exists (args_of w), (row_of_call w). split.
  { unfold last_event. by destruct (next_fault OpExecute w). }
  split; [unfold args_of; by rewrite row_of_SQL_QUERY|].
  split.
  - unfold args_of. cbn [last]. by rewrite dumps_note.
  - by rewrite row_of_call_fields, dumps_note.
Qed.

(** C8. Loading the module reads the four variables in order. When one is
    absent, loading raises [KeyError] for the first absent one while [app]
    has no route: the service is down and no request gets an answer. When
    the four are present, loading succeeds with their values in the
    configuration and the two routes registered. *)
Theorem import_module_environ environ :
  match missing environ with
  | v :: _ =>
      let e := exn_of {| cls := "KeyError"; msg := v |} in
      import_module environ = (Raise e, []) ∧
      start environ = Down e ∧
      ∀ method path w, request (start environ) method path w = (Return None, w)
  | [] =>
      ∃ g,
        import_module environ = (Return g, module_routes) ∧
        start environ = Up g module_routes ∧
        environ !! "DB_USER" = Some (DB_USER g) ∧
        environ !! "DB_PASS" = Some (DB_PASS g) ∧
        environ !! "DB_NAME" = Some (DB_NAME g) ∧
        (∃ i, environ !! "INSTANCE_CONNECTION_NAME" = Some i ∧
              DB_HOST g = "/cloudsql/" +:+ i)
  end.
Proof.
  unfold missing, required, start, import_module, module_body, lift, Os.environ_get,
    mbind, Startup_bind.
  destruct (environ !! "DB_USER") as [u|] eqn:Hu;
    destruct (environ !! "DB_PASS") as [p|] eqn:Hp;
    destruct (environ !! "DB_NAME") as [n|] eqn:Hn;
    destruct (environ !! "INSTANCE_CONNECTION_NAME") as [i|] eqn:Hi;
    rewrite ?filter_cons, ?filter_nil, ?Hu, ?Hp, ?Hn, ?Hi; cbn;
    try done.
  eexists. split; [reflexivity|]. split; [reflexivity|]. cbn. repeat split. by exists i.
Qed.

(** ** Further properties *)

(** X1. A call of [ingest] returns exactly when its calls of [connect],
    [execute] and [commit] do not fail. Nothing that earlier calls left in
    the world, and nothing in the module itself (the statement has as many
    placeholders as arguments, the cursor and the connection are open when
    used), makes it raise. *)
Theorem ingest_returns_iff g w :
  (∃ w', ingest g w = (Return [("result", "inserted")], w')) ↔
  next_fault OpConnect w = None ∧ next_fault OpExecute w = None ∧
  next_fault OpCommit w = None.
Proof.
  rewrite ingest_run. unfold insert_row_cases.
  destruct (next_fault OpConnect w).
  { split; [by intros [w' ?]|by intros [? _]]. }
  destruct (next_fault OpExecute w).
  { split; [intros [w' ?]; by destruct (next_fault OpRollback w)|by intros (_ & ? & _)]. }
  destruct (next_fault OpCommit w).
  { split; [|by intros (_ & _ & ?)].
    intros [w' ?]. by destruct (next_commit_failure w) as [|[]]. }
  split; [done|]. intros _. by eexists.
Qed.

(** X2. When the commit at the end of [with conn] fails, [insert_row]
    raises that exception, no rollback is sent, and nothing stays pending in
    the transaction of the connection. When the server refused the commit,
    the connection is still open and nothing was committed. When the link
    broke, the client has marked the connection closed, and the row of the
    call is committed exactly when the server had applied the commit before
    the link broke. *)
Theorem insert_row_commit_failure g w e :
  next_fault OpConnect w = None → next_fault OpExecute w = None →
  next_fault OpCommit w = Some e →
  ∃ w',
    insert_row g w = (Raise (exn_of e), w') ∧
    count OpRollback (new_events w w') = 0%nat ∧
    pending (length (conns w)) w' = [] ∧
    closed_conn (length (conns w)) w'
    = match next_commit_failure w with
      | Refused => false
      | Broken _ => true
      end ∧
    tables w'
    = match next_commit_failure w with
      | Broken true => <[vitals_events := rows w vitals_events ++ [row_of_call w]]> (tables w)
      | _ => tables w
      end.
Proof.
  intros Hc He Hm. rewrite insert_row_run. unfold insert_row_cases.
  rewrite Hc, He, Hm.
  assert (∀ ts closed,
            count OpRollback
              (new_events w (after g w ts closed (EvCommit (length (conns w))))) = 0%nat ∧
            pending (length (conns w))
              (after g w ts closed (EvCommit (length (conns w)))) = [] ∧
            closed_conn (length (conns w))
              (after g w ts closed (EvCommit (length (conns w)))) = closed ∧
            tables (after g w ts closed (EvCommit (length (conns w)))) = ts) as Hafter.
  { intros ts closed. split.
    { erewrite new_events_app by reflexivity. count_events. }
    unfold closed_conn, pending, after. cbn [conns tables].
    by rewrite lookup_snoc. }
  destruct (next_commit_failure w) as [|[]];
    (eexists; split; [reflexivity|]); apply Hafter.
Qed.

Lemma insert_row_commit_failure_witness :
  next_fault OpConnect (commit_fault_world (Broken false)) = None ∧
  next_fault OpExecute (commit_fault_world (Broken false)) = None ∧
  next_fault OpCommit (commit_fault_world (Broken false)) = Some connection_lost ∧
  ∃ w',
    insert_row sample_config (commit_fault_world (Broken false))
    = (Raise (exn_of connection_lost), w') ∧
    count OpRollback (new_events (commit_fault_world (Broken false)) w') = 0%nat ∧
    pending (length (conns (commit_fault_world (Broken false)))) w' = [] ∧
    closed_conn (length (conns (commit_fault_world (Broken false)))) w' = true ∧
    tables w' = tables (commit_fault_world (Broken false)).
Proof.
  repeat (split; [reflexivity|]).
  apply (insert_row_commit_failure sample_config (commit_fault_world (Broken false))
           connection_lost);
    reflexivity.
Defined.


Transparent Sql.row_of SQL_QUERY.

(** X4. [SQL_QUERY] takes exactly eight arguments. With eight, the row
    for [public.vitals_events] gives them to the columns in the order of the
    column list, [effective_ts] taking the time of the database between the
    sixth and the seventh; with any other number the statement is refused. *)
Theorem SQL_QUERY_arity args now :
  Sql.row_of SQL_QUERY args now =
  match args with
  | [a1; a2; a3; a4; a5; a6; a7; a8] =>
      Some (vitals_events,
            [("event_id", Sql.adapt a1); ("patient_id", Sql.adapt a2);
             ("loinc_code", Sql.adapt a3); ("code_display", Sql.adapt a4);
             ("value_num", Sql.adapt a5); ("unit", Sql.adapt a6);
             ("effective_ts", SqlTimestamp now); ("source", Sql.adapt a7);
             ("raw", Sql.adapt a8)])
  | _ => None
  end.
Proof.
  unfold Sql.row_of. rewrite SQL_QUERY_parsed. cbn [Sql.exprs Sql.columns Sql.target].
  do 9 (destruct args as [|? args]; [reflexivity|]). reflexivity.
Qed.

Opaque Sql.row_of SQL_QUERY.

(** The two routes of the module. *)
Lemma find_route_cases method path :
  find_route module_routes method path =
  if decide (method = "GET" ∧ path = "/") then Some Health
  else if decide (method = "POST" ∧ path = "/ingest") then Some Ingest
  else None.
Proof.
  unfold find_route, module_routes. cbn.
  destruct (decide (method = "GET" ∧ path = "/")) as [[-> ->]|Hget].
  { by rewrite decide_True. }
  rewrite decide_False by (intros [<- <-]; by apply Hget). cbn.
  destruct (decide (method = "POST" ∧ path = "/ingest")) as [[-> ->]|Hpost].
  { by rewrite decide_True. }
  rewrite decide_False by (intros [<- <-]; by apply Hpost). done.
Qed.

(** [grows] composes. *)
Lemma grows_refl w : grows w w 0 0.
Proof.
  split; [done|]. split; [exists []; by rewrite app_nil_r|]. split; [done|].
  exists []. by rewrite app_nil_r.
Qed.

Lemma grows_trans w w' w'' lo hi lo' hi' :
  grows w w' lo hi → grows w' w'' lo' hi' → grows w w'' (lo + lo') (hi + hi').
Proof.
  intros (Hf & (news & Hr & Hn & Hx) & Ht & new & Hc & Hl & Ho)
         (Hf' & (news' & Hr' & Hn' & Hx') & Ht' & new' & Hc' & Hl' & Ho').
  split; [congruence|]. split.
  { exists (news ++ news'). rewrite Hr', Hr, length_app, app_assoc.
    split; [done|]. split; [lia|]. intros Hno. rewrite Hx by done.
    rewrite Hx'; [done|]. unfold no_reply_lost. by rewrite Hf. }
  split; [intros t Hne; rewrite Ht', Ht; done|].
  exists (new ++ new'). unfold open_among in *.
  rewrite Hc', Hc, filter_app, !length_app, app_assoc.
  split; [done|]. split; lia.
Qed.

(** A call that connected and did not commit. *)
Lemma grows_after_fail g w closed last :
  grows w (after g w (tables w) closed last) 0 1.
Proof.
  split; [done|]. split.
  { exists []. rewrite app_nil_r. split; [done|]. split; [cbn; lia|done]. }
  split; [done|]. eexists. split; [reflexivity|]. split; [cbn; lia|].
  unfold open_among. destruct closed; cbn; case_decide; cbn; lia.
Qed.

(** A call whose row was committed. *)
Lemma grows_after_commit g w last lo :
  (lo ≤ 1)%nat → (lo = 0%nat → ¬ no_reply_lost w) →
  grows w (after g w (apply [(vitals_events, row_of_call w)] (tables w)) true last) lo 1.
Proof.
  intros Hlo Hlost. split; [done|].
  unfold rows, after, apply. cbn [tables conns foldl fst snd].
  split.
  { exists [row_of_call w]. rewrite lookup_insert_eq. split; [done|].
    split; [cbn; lia|]. intros Hno. cbn.
    destruct lo as [|[|lo]]; [by destruct Hlost|done|lia]. }
  split; [intros t Ht; by rewrite lookup_insert_ne|].
  eexists. split; [reflexivity|]. unfold open_among. cbn. case_decide; cbn; lia.
Qed.

(** What one request does to the tables and to the connections. *)
Lemma request_effect g method path w :
  ∃ r w',
    request (Up g module_routes) method path w = (Return r, w') ∧
    is_Some r ∧
    grows w w' (if ingest_ok (method, path) r then 1 else 0)
               (if is_ingest (method, path) then 1 else 0).
Proof.
  unfold request. rewrite find_route_cases.
  destruct (decide (method = "GET" ∧ path = "/")) as [[-> ->]|Hget].
  { eexists _, _. split; [reflexivity|]. split; [done|]. apply grows_refl. }
  destruct (decide (method = "POST" ∧ path = "/ingest")) as [[-> ->]|Hpost].
  2:{ eexists _, _. split; [reflexivity|]. split; [done|].
      unfold ingest_ok, is_ingest.
      rewrite bool_decide_eq_false_2; [apply grows_refl|].
      intros [= -> ->]. by apply Hpost. }
  assert (is_ingest ("POST", "/ingest") = true) as Hin by reflexivity.
  assert (∀ c, ingest_ok ("POST", "/ingest") (Some {| status := 500; content := c |})
               = false) as H500 by (intros c; reflexivity).
  assert (∀ c, ingest_ok ("POST", "/ingest") (Some {| status := 200; content := c |})
               = true) as H200 by (intros c; reflexivity).
  unfold mbind, Py_bind, try, call. rewrite ingest_run. unfold insert_row_cases.
  destruct (next_fault OpConnect w).
  { eexists _, _. split; [reflexivity|]. split; [done|]. rewrite Hin, H500.
    split; [done|]. split.
    { exists []. rewrite app_nil_r. split; [done|]. split; [cbn; lia|done]. }
    split; [done|]. exists []. cbn [conns set_trace]. rewrite app_nil_r.
    split; [done|]. cbn. lia. }
  destruct (next_fault OpExecute w).
  { destruct (next_fault OpRollback w);
      (eexists _, _; split; [reflexivity|]; split; [done|]; rewrite Hin, H500;
       apply grows_after_fail). }
  destruct (next_fault OpCommit w).
  { destruct (next_commit_failure w) as [|[]] eqn:Hhow;
      (eexists _, _; split; [reflexivity|]; split; [done|]; rewrite Hin, H500);
      [apply grows_after_fail| |apply grows_after_fail].
    apply grows_after_commit; [lia|]. intros _ Hno. by eapply Hno. }
  eexists _, _. split; [reflexivity|]. split; [done|]. rewrite Hin, H200.
  by apply grows_after_commit.
Qed.

(** Serving a list of requests. *)
Lemma serve_effect g reqs w :
  ∃ rs w',
    serve (Up g module_routes) reqs w = (Return rs, w') ∧
    length rs = length reqs ∧ Forall is_Some rs ∧
    grows w w' (ingests_ok reqs rs) (ingests reqs).
Proof.
  revert w. induction reqs as [|[method path] reqs IH]; intros w.
  { exists [], w. split; [done|]. split; [done|]. split; [done|]. apply grows_refl. }
  destruct (request_effect g method path w) as (r & w1 & Hr & Hsome & Hg).
  destruct (IH w1) as (rs & w2 & Hs & Hl & Hall & Hg').
  exists (r :: rs), w2. cbn [serve fst snd]. unfold mbind, Py_bind.
  rewrite Hr. fold (serve (Up g module_routes) reqs). rewrite Hs.
  split; [done|]. split; [cbn; by rewrite Hl|]. split; [by constructor|].
  cbn [ingests_ok ingests]. by eapply grows_trans.
Qed.

(** X5. Requests served one after the other on the running service: every
    request gets an answer, and no table other than [public.vitals_events]
    changes. The rows added to [public.vitals_events] are at least as many
    as the [POST /ingest] answered with 200 and at most as many as the
    [POST /ingest] received; they are exactly as many as those answered with
    200 when no commit is applied by the server with its reply lost. *)
Theorem serve_rows g reqs w :
  ∃ rs w' news,
    serve (Up g module_routes) reqs w = (Return rs, w') ∧
    length rs = length reqs ∧ Forall is_Some rs ∧
    rows w' vitals_events = rows w vitals_events ++ news ∧
    (ingests_ok reqs rs ≤ length news ≤ ingests reqs)%nat ∧
    (no_reply_lost w → length news = ingests_ok reqs rs) ∧
    ∀ t, t ≠ vitals_events → rows w' t = rows w t.
Proof.
  destruct (serve_effect g reqs w)
    as (rs & w' & Hs & Hl & Hall & _ & (news & Hr & Hn & Hx) & Ht & _).
  by exists rs, w', news.
Qed.

(** X6. Serving requests leaves the connections that were there as they
    were, and adds at most one for each [POST /ingest] received. The
    connection of a request answered with 200 is closed when the answer is
    sent: the connections opened meanwhile and still open are at most as
    many as the [POST /ingest] that were not answered with 200. *)
Theorem serve_connections g reqs w :
  ∃ rs w' new,
    serve (Up g module_routes) reqs w = (Return rs, w') ∧
    conns w' = conns w ++ new ∧
    (length new ≤ ingests reqs)%nat ∧
    (open_among new + ingests_ok reqs rs ≤ ingests reqs)%nat.
Proof.
  destruct (serve_effect g reqs w)
    as (rs & w' & Hs & _ & _ & _ & _ & _ & new & Hc & Hl & Ho).
  by exists rs, w', new.
Qed.

(** A failed insert, a health check and an insert. *)
Example serve_sample :
  let w := sample_world execute_fault in
  let reqs := [("POST", "/ingest"); ("GET", "/"); ("POST", "/ingest")] in
  match (serve (Up sample_config module_routes) reqs w).1 with
  | Return rs => (λ r : option Response, status <$> r) <$> rs
  | Raise _ => []
  end = [Some 500; Some 200; Some 200] ∧
  length (rows (serve (Up sample_config module_routes) reqs w).2 vitals_events) = 1%nat ∧
  open_conns (serve (Up sample_config module_routes) reqs w).2 = [0%nat].
Proof. vm_compute. done. Qed.

(** The configuration of a module that loaded. *)
Lemma import_module_config environ g routes :
  import_module environ = (Return g, routes) →
  routes = module_routes ∧
  environ !! "DB_USER" = Some (DB_USER g) ∧
  environ !! "DB_PASS" = Some (DB_PASS g) ∧
  environ !! "DB_NAME" = Some (DB_NAME g) ∧
  ∃ i, environ !! "INSTANCE_CONNECTION_NAME" = Some i ∧ DB_HOST g = "/cloudsql/" +:+ i.
Proof.
  unfold import_module, module_body, lift, Os.environ_get, mbind, Startup_bind.
  destruct (environ !! "DB_USER") as [u|]; [|done].
  destruct (environ !! "DB_PASS") as [p|]; [|done].
  destruct (environ !! "DB_NAME") as [n|]; [|done].
  destruct (environ !! "INSTANCE_CONNECTION_NAME") as [i|]; [|done].
  cbn. intros [= <- <-]. cbn. repeat split. by exists i.
Qed.

(** X7. Every call of [ingest] in a service that started begins with one
    call of [psycopg2.connect], with the user, the password and the database
    name found in the environment at start-up and the host
    [/cloudsql/<INSTANCE_CONNECTION_NAME>]. *)
Theorem ingest_connects_with_environ environ g routes w :
  import_module environ = (Return g, routes) →
  ∃ user pass name instance,
    environ !! "DB_USER" = Some user ∧
    environ !! "DB_PASS" = Some pass ∧
    environ !! "DB_NAME" = Some name ∧
    environ !! "INSTANCE_CONNECTION_NAME" = Some instance ∧
    head (new_events w (ingest g w).2)
      = Some (EvConnect user pass name ("/cloudsql/" +:+ instance)) ∧
    count OpConnect (new_events w (ingest g w).2) = 1%nat.
Proof.
  intros (_ & Hu & Hp & Hn & i & Hi & Hh)%import_module_config.
  exists (DB_USER g), (DB_PASS g), (DB_NAME g), i.
  repeat (split; [done|]). rewrite ingest_events, <- Hh.
  destruct (next_fault OpConnect w); (split; [done|]).
  - count_events.
  - unfold last_event. destruct (next_fault OpExecute w); count_events.
Qed.

Lemma ingest_connects_with_environ_witness :
  import_module sample_environ = (Return sample_config, module_routes) ∧
  ∃ user pass name instance,
    sample_environ !! "DB_USER" = Some user ∧
    sample_environ !! "DB_PASS" = Some pass ∧
    sample_environ !! "DB_NAME" = Some name ∧
    sample_environ !! "INSTANCE_CONNECTION_NAME" = Some instance ∧
    head (new_events (sample_world no_fault)
            (ingest sample_config (sample_world no_fault)).2)
      = Some (EvConnect user pass name ("/cloudsql/" +:+ instance)) ∧
    count OpConnect (new_events (sample_world no_fault)
                       (ingest sample_config (sample_world no_fault)).2) = 1%nat.
Proof.
  split.
  - vm_compute. reflexivity.
  - apply (ingest_connects_with_environ sample_environ sample_config module_routes
             (sample_world no_fault)).
    vm_compute. reflexivity.
Defined.


(** Each decimal from 60.0 to 100.0 is reached, and each is below the
    next. *)
Lemma tenths_reached :
  forallb (λ t, (0 <=? draw_for_tenths t) && (draw_for_tenths t <? 2 ^ 53) &&
                (value_of_draw (draw_for_tenths t) =? Float64.of_decimal t 1))
          tenths = true.
Proof. vm_compute. reflexivity. Qed.

Lemma tenths_distinct :
  forallb (λ t, Float64.of_decimal t 1 <? Float64.of_decimal (t + 1) 1) (seqZ 600 400) = true.
Proof. vm_compute. reflexivity. Qed.

Lemma tenths_spec t : t ∈ tenths ↔ 600 ≤ t ≤ 1000.
Proof. unfold tenths. rewrite elem_of_seqZ. lia. Qed.

Lemma in_forallb {A} (f : A → bool) (l : list A) x :
  forallb f l = true → x ∈ l → f x = true.
Proof. rewrite forallb_forall. intros H Hx. apply H. by apply list_elem_of_In. Qed.

(** Two columns of the row of a call. *)
Lemma field_patient_id w :
  field "patient_id" (row_of_call w) = Some (SqlText (patient_of w)).
Proof. rewrite row_of_call_fields. reflexivity. Qed.

Lemma field_value_num w :
  field "value_num" (row_of_call w) = Some (SqlFloat (value_of w)).
Proof. rewrite row_of_call_fields. reflexivity. Qed.

Lemma value_of_draw_eq w : value_of w = value_of_draw (tape w (S (S (drawn w)))).
Proof. unfold value_of, value_of_draw. reflexivity. Qed.

(** X8. The values that a call can insert are all there: for each of the
    three patients and each decimal [t / 10] from 60.0 to 100.0 there are
    draws of [random.choice] and [random.random] with which the row of the
    call has that patient and that value. *)
Theorem row_values_reachable p t :
  p ∈ ["P001"; "P002"; "P003"] → 600 ≤ t ≤ 1000 →
  ∃ r1 r2,
    0 ≤ r1 < 3 ∧ 0 ≤ r2 < 2 ^ 53 ∧
    ∀ w, tape w (S (drawn w)) = r1 → tape w (S (S (drawn w))) = r2 →
         field "patient_id" (row_of_call w) = Some (SqlText p) ∧
         field "value_num" (row_of_call w) = Some (SqlFloat (Float64.of_decimal t 1)).
Proof.
  intros Hp Ht.
  assert (∃ r1, 0 ≤ r1 < 3 ∧
                nth (Z.to_nat (r1 mod 3)) ["P001"; "P002"; "P003"] "P001" = p)
    as (r1 & Hr1 & Hnth).
  { revert Hp. rewrite !elem_of_cons, elem_of_nil.
    intros [->|[->|[->|[]]]];
      [exists 0|exists 1|exists 2]; (split; [lia|reflexivity]). }
  pose proof (in_forallb _ _ t tenths_reached (proj2 (tenths_spec t) Ht)) as Hk.
  apply andb_true_iff in Hk as [[Hk0 Hk1]%andb_true_iff Hv].
  apply Z.leb_le in Hk0. apply Z.ltb_lt in Hk1. apply Z.eqb_eq in Hv.
  exists r1, (draw_for_tenths t). split; [exact Hr1|]. split; [split; assumption|].
  intros w Hw1 Hw2. rewrite field_patient_id, field_value_num, value_of_draw_eq.
  unfold patient_of. rewrite Hw1, Hw2, Hnth, Hv. split; reflexivity.
Qed.

Lemma row_values_reachable_witness :
  "P003" ∈ ["P001"; "P002"; "P003"] ∧ 600 ≤ 1000 ≤ 1000 ∧
  ∃ r1 r2,
    0 ≤ r1 < 3 ∧ 0 ≤ r2 < 2 ^ 53 ∧
    ∀ w, tape w (S (drawn w)) = r1 → tape w (S (S (drawn w))) = r2 →
         field "patient_id" (row_of_call w) = Some (SqlText "P003") ∧
         field "value_num" (row_of_call w) = Some (SqlFloat (Float64.of_decimal 1000 1)).
Proof.
  assert ("P003" ∈ ["P001"; "P002"; "P003"]) as Hp by (repeat constructor).
  assert (600 ≤ 1000 ≤ 1000) as Ht by lia.
  split; [exact Hp|]. split; [exact Ht|].
  exact (row_values_reachable "P003" 1000 Hp Ht).
Defined.

(** X9. Different decimals are different floats: the 401 decimals from
    60.0 to 100.0 are 401 values of [value_num], in increasing order. *)
Theorem tenths_increasing t t' :
  600 ≤ t → t < t' → t' ≤ 1000 →
  Float64.of_decimal t 1 < Float64.of_decimal t' 1.
Proof.
  intros Ht Hlt Ht'.
  assert (∀ n, (0 ≤ n)%nat → 600 ≤ t → t + Z.of_nat n + 1 ≤ 1000 →
               Float64.of_decimal t 1 < Float64.of_decimal (t + Z.of_nat n + 1) 1) as H.
  { induction n as [|n IH]; intros _ H1 H2.
    - rewrite Z.add_0_r.
      pose proof (in_forallb _ _ t tenths_distinct) as Hs.
      apply Z.ltb_lt, Hs, elem_of_seqZ. lia.
    - eapply Z.lt_trans; [apply IH; lia|].
      pose proof (in_forallb _ _ (t + Z.of_nat n + 1) tenths_distinct) as Hs.
      replace (t + Z.of_nat (S n) + 1) with (t + Z.of_nat n + 1 + 1) by lia.
      apply Z.ltb_lt, Hs, elem_of_seqZ. lia. }
  replace t' with (t + Z.of_nat (Z.to_nat (t' - t - 1)) + 1) by lia.
  apply H; lia.
Qed.

Lemma tenths_increasing_witness :
  600 ≤ 600 ∧ 600 < 601 ∧ 601 ≤ 1000 ∧
  Float64.of_decimal 600 1 < Float64.of_decimal 601 1.
Proof.
  assert (600 ≤ 600) as H1 by lia.
  assert (600 < 601) as H2 by lia.
  assert (601 ≤ 1000) as H3 by lia.
  repeat (split; [assumption|]).
  exact (tenths_increasing 600 601 H1 H2 H3).
Defined.

(** ** The event identifier *)

(** The text of a UUID, character by character. *)
Transparent Uuid.str Uuid.uuid4.

Lemma str_chars u : Uuid.str u = String.string_of_list_ascii (uuid_chars u).
Proof. reflexivity. Qed.

Lemma unhyphen_chars u :
  unhyphen (uuid_chars u) = digits (λ k, Uuid.hex_digit (nibble u k)).
Proof. reflexivity. Qed.

(** [uuid4] keeps the free bits and writes the fixed ones. *)
Lemma uuid4_split r : Uuid.uuid4 r = Z.lor (free_bits r) uuid4_fixed_bits.
Proof.
  unfold Uuid.uuid4, free_bits, uuid4_fixed_bits, uuid4_fixed_mask. cbn zeta.
  generalize (r mod 2 ^ 128). intros i.
  rewrite Z.land_lor_distr_l, <- Z.land_assoc, <- Z.lor_assoc, <- Z.lnot_lor.
  reflexivity.
Qed.

Opaque Uuid.str Uuid.uuid4.

Lemma free_bits_mask r : free_bits r = Z.land r free_mask.
Proof.
  unfold free_bits, free_mask. by rewrite <- Z.land_ones, Z.land_assoc by lia.
Qed.

Lemma free_bits_disjoint r : Z.land (free_bits r) uuid4_fixed_bits = 0.
Proof.
  rewrite free_bits_mask, <- Z.land_assoc.
  change (Z.land free_mask uuid4_fixed_bits) with 0. apply Z.land_0_r.
Qed.

Lemma lor_inj x y c :
  Z.land x c = 0 → Z.land y c = 0 → Z.lor x c = Z.lor y c → x = y.
Proof.
  intros Hx Hy H.
  assert (∀ z, Z.land z c = 0 → Z.land z (Z.lnot c) = z) as Hz.
  { intros z Hzc. rewrite <- Z.ldiff_land.
    rewrite <- (Z.lor_ldiff_and z c) at 2. by rewrite Hzc, Z.lor_0_r. }
  rewrite <- (Hz x Hx), <- (Hz y Hy), <- !Z.sub_lor_l_same_r. by rewrite H.
Qed.

Lemma uuid4_range r : 0 ≤ Uuid.uuid4 r < 2 ^ 128.
Proof.
  assert (Uuid.uuid4 r mod 2 ^ 128 = Uuid.uuid4 r) as <-.
  { rewrite <- Z.land_ones by lia.
    rewrite uuid4_split, Z.land_lor_distr_l, free_bits_mask, <- Z.land_assoc.
    reflexivity. }
  apply Z.mod_pos_bound. reflexivity.
Qed.

(** The digits of an integer. *)
Lemma nibble_range u k : 0 ≤ nibble u k < 16.
Proof. unfold nibble. apply Z.mod_pos_bound. lia. Qed.

Lemma nibble_0 u : nibble u 0 = u mod 16.
Proof. reflexivity. Qed.

Lemma nibble_S u k : nibble u (S k) = nibble (u / 16) k.
Proof. unfold nibble. by rewrite Nat.iter_succ_r. Qed.

Lemma nibble_shiftr u k : nibble u k = Z.land (Z.shiftr u (4 * Z.of_nat k)) 15.
Proof.
  revert u. induction k as [|k IH]; intros u.
  - rewrite nibble_0. change 15 with (Z.ones 4). rewrite Z.land_ones by lia.
    by rewrite Z.shiftr_0_r.
  - rewrite nibble_S, IH. change 16 with (2 ^ 4).
    rewrite <- Z.shiftr_div_pow2, Z.shiftr_shiftr by lia.
    f_equal. f_equal. lia.
Qed.

(** The version digit and the variant digit. *)
Lemma uuid4_version r : nibble (Uuid.uuid4 r) 19 = 4.
Proof.
  rewrite nibble_shiftr, uuid4_split, free_bits_mask.
  rewrite Z.shiftr_lor, Z.shiftr_land, Z.land_lor_distr_l, <- Z.land_assoc.
  change (Z.land (Z.shiftr free_mask (4 * Z.of_nat 19)) 15) with 0.
  rewrite Z.land_0_r. reflexivity.
Qed.

Lemma uuid4_variant r : 8 ≤ nibble (Uuid.uuid4 r) 15 ≤ 11.
Proof.
  rewrite nibble_shiftr, uuid4_split, free_bits_mask.
  rewrite Z.shiftr_lor, Z.shiftr_land, Z.land_lor_distr_l, <- Z.land_assoc.
  change (Z.land (Z.shiftr free_mask (4 * Z.of_nat 15)) 15) with (Z.ones 2).
  change (Z.land (Z.shiftr uuid4_fixed_bits (4 * Z.of_nat 15)) 15) with 8.
  rewrite Z.land_ones by lia.
  pose proof (Z.mod_pos_bound (Z.shiftr r (4 * Z.of_nat 15)) (2 ^ 2) ltac:(lia)) as H.
  change (2 ^ 2) with 4 in *.
  assert (∀ y, 0 ≤ y < 4 → 8 ≤ Z.lor y 8 ≤ 11) as Hy.
  { intros y Hy. assert (y = 0 ∨ y = 1 ∨ y = 2 ∨ y = 3) as [->|[->|[->| ->]]] by lia;
      (split; by vm_compute). }
  by apply Hy.
Qed.

(** The characters of the digits. *)
Lemma hex_digit_code n :
  0 ≤ n < 16 →
  Ascii.nat_of_ascii (Uuid.hex_digit n) = Z.to_nat (if n <? 10 then 48 + n else 87 + n).
Proof.
  intros Hn. unfold Uuid.hex_digit. apply Ascii.nat_ascii_embedding.
  destruct (Z.ltb_spec n 10); lia.
Qed.

Lemma hex_digit_is_hex n : 0 ≤ n < 16 → is_hex_char (Uuid.hex_digit n) = true.
Proof.
  intros Hn. unfold is_hex_char. rewrite hex_digit_code by done.
  destruct (Z.ltb_spec n 10).
  - apply orb_true_iff. left. apply andb_true_iff. split; apply Nat.leb_le; lia.
  - apply orb_true_iff. right. apply andb_true_iff. split; apply Nat.leb_le; lia.
Qed.

Lemma hex_digit_inj a b :
  0 ≤ a < 16 → 0 ≤ b < 16 → Uuid.hex_digit a = Uuid.hex_digit b → a = b.
Proof.
  intros Ha Hb H. apply (f_equal Ascii.nat_of_ascii) in H.
  rewrite !hex_digit_code in H by done.
  destruct (Z.ltb_spec a 10), (Z.ltb_spec b 10); lia.
Qed.


Lemma shape_of_digits (c : nat → Ascii.ascii) :
  (∀ k, is_hex_char (c k) = true) →
  String (c 19%nat) EmptyString ∈ ["4"] →
  String (c 15%nat) EmptyString ∈ ["8"; "9"; "a"; "b"] →
  uuid4_shape_chars (hyphenate (digits c)) = true.
Proof.
  intros Hhex Hversion Hvariant.
  unfold uuid4_shape_chars, char_at.
  let l := eval vm_compute in (hyphenate (digits c)) in
    change (hyphenate (digits c)) with l.
  cbn [hex_places hyphen_places seq app forallb lookup list_lookup length Nat.eqb].
  rewrite !Hhex, !(bool_decide_eq_true_2 _ Hversion), !(bool_decide_eq_true_2 _ Hvariant).
  reflexivity.
Qed.

Lemma field_event_id w :
  field "event_id" (row_of_call w)
  = Some (SqlText (Uuid.str (Uuid.uuid4 (tape w (drawn w))))).
Proof. rewrite row_of_call_fields. reflexivity. Qed.

(** X10. The event identifier of a call has the shape of a version 4 UUID,
    whatever the random bytes. *)
Theorem event_id_shape w :
  ∃ s, field "event_id" (row_of_call w) = Some (SqlText s) ∧ uuid4_shape s = true.
Proof.
  eexists. split; [apply field_event_id|].
  unfold uuid4_shape.
  rewrite str_chars, String.list_ascii_of_string_of_list_ascii.
  apply shape_of_digits.
  - intros k. apply hex_digit_is_hex, nibble_range.
  - rewrite uuid4_version. repeat constructor.
  - pose proof (uuid4_variant (tape w (drawn w))) as H.
    assert (∀ n, 8 ≤ n ≤ 11 →
              String (Uuid.hex_digit n) EmptyString ∈ ["8"; "9"; "a"; "b"]) as Hn.
    { intros n Hn.
      assert (n = 8 ∨ n = 9 ∨ n = 10 ∨ n = 11) as [->|[->|[->| ->]]] by lia;
        repeat constructor. }
    by apply Hn.
Qed.

(** A version 4 UUID, a version 1 UUID, a wrong variant, no hyphens. *)
Example uuid4_shape_sample :
  uuid4_shape "12345678-9abc-4ef0-9234-56789abcdef0" = true ∧
  uuid4_shape "12345678-9abc-1ef0-9234-56789abcdef0" = false ∧
  uuid4_shape "12345678-9abc-4ef0-c234-56789abcdef0" = false ∧
  uuid4_shape "123456789abc4ef0923456789abcdef0" = false.
Proof. vm_compute. done. Qed.

(** Integers with the same digits. *)
Lemma nibbles_eq n u v :
  (∀ k, (k < n)%nat → nibble u k = nibble v k) →
  u mod 16 ^ Z.of_nat n = v mod 16 ^ Z.of_nat n.
Proof.
  revert u v. induction n as [|n IH]; intros u v H.
  { change (16 ^ Z.of_nat 0) with 1. by rewrite !Z.mod_1_r. }
  rewrite Nat2Z.inj_succ, Z.pow_succ_r by lia.
  rewrite !Z.rem_mul_r by lia.
  rewrite <- !nibble_0, (H 0%nat) by lia.
  rewrite (IH (u / 16) (v / 16)); [done|].
  intros k Hk. rewrite <- !nibble_S. apply H. lia.
Qed.

Lemma map_eq_pointwise {A B} (f g : A → B) (l : list A) x :
  map f l = map g l → x ∈ l → f x = g x.
Proof.
  induction l as [|y l IH]; intros H Hx; [by apply elem_of_nil in Hx|].
  injection H as Hy Hl. apply elem_of_cons in Hx as [->|Hx]; [done|by apply IH].
Qed.

(** The text of a UUID determines its 128 bits. *)
Lemma str_inj u v : Uuid.str u = Uuid.str v → u mod 2 ^ 128 = v mod 2 ^ 128.
Proof.
  intros H. rewrite !str_chars in H.
  apply (f_equal String.list_ascii_of_string) in H.
  rewrite !String.list_ascii_of_string_of_list_ascii in H.
  apply (f_equal unhyphen) in H. rewrite !unhyphen_chars in H.
  change (2 ^ 128) with (16 ^ Z.of_nat 32). apply nibbles_eq. intros k Hk.
  apply hex_digit_inj; [apply nibble_range..|].
  apply (map_eq_pointwise _ _ _ k H).
  apply list_elem_of_In, in_rev. rewrite rev_involutive. apply in_seq. lia.
Qed.

(** The bits that [free_bits] keeps. *)
Lemma free_mask_bits :
  forallb (λ n, Bool.eqb (Z.testbit free_mask n) (negb (bool_decide (n ∈ fixed_places))))
          (seqZ 0 128) = true.
Proof. vm_compute. reflexivity. Qed.

Lemma free_mask_testbit n :
  0 ≤ n →
  Z.testbit free_mask n = bool_decide (n < 128) && negb (bool_decide (n ∈ fixed_places)).
Proof.
  intros Hn. destruct (decide (n < 128)) as [Hlt|Hge].
  - rewrite (bool_decide_eq_true_2 _ Hlt). cbn [andb].
    apply Bool.eqb_prop, (in_forallb _ _ n free_mask_bits), elem_of_seqZ. lia.
  - rewrite (bool_decide_eq_false_2 _ Hge). cbn [andb].
    unfold free_mask. rewrite Z.land_spec, Z.ones_spec_high by lia. reflexivity.
Qed.

Lemma free_bits_eq r r' :
  free_bits r = free_bits r' ↔
  ∀ n, 0 ≤ n < 128 → n ∉ fixed_places → Z.testbit r n = Z.testbit r' n.
Proof.
  rewrite !free_bits_mask. split.
  - intros H n Hn Hfree. apply (f_equal (λ x, Z.testbit x n)) in H.
    rewrite !Z.land_spec, free_mask_testbit in H by lia.
    rewrite bool_decide_eq_true_2, (bool_decide_eq_false_2 _ Hfree) in H by lia.
    by rewrite !andb_true_r in H.
  - intros H. apply Z.bits_inj'. intros n Hn.
    rewrite !Z.land_spec, free_mask_testbit by lia.
    destruct (decide (n < 128)) as [Hlt|Hge].
    + destruct (decide (n ∈ fixed_places)) as [Hin|Hout].
      * rewrite (bool_decide_eq_true_2 _ Hin). cbn. by rewrite !andb_false_r.
      * by rewrite (H n) by (done || lia).
    + rewrite (bool_decide_eq_false_2 _ Hge). cbn. by rewrite !andb_false_r.
Qed.

(** X11. Two calls insert the same event identifier exactly when their 16
    random bytes, as 128-bit integers, agree on every bit but the six that
    [uuid4] overwrites with the variant (62 and 63) and the version (76 to
    79): the text keeps the other 122 bits. *)
Theorem event_id_collision w1 w2 :
  field "event_id" (row_of_call w1) = field "event_id" (row_of_call w2) ↔
  ∀ n, 0 ≤ n < 128 → n ∉ fixed_places →
       Z.testbit (tape w1 (drawn w1)) n = Z.testbit (tape w2 (drawn w2)) n.
Proof.
  rewrite <- free_bits_eq, !field_event_id. split.
  - intros H.
    apply (f_equal (λ o, match o with Some (SqlText s) => s | _ => EmptyString end)) in H.
    apply str_inj in H.
    rewrite !Z.mod_small in H by apply uuid4_range.
    rewrite !uuid4_split in H.
    apply lor_inj in H; [exact H|apply free_bits_disjoint..].
  - intros H. by rewrite !uuid4_split, H.
Qed.
